(** * Autocomplete metadata cache of the console plugin

    A shallow embedding of
    [src/plugins/console/public/lib/mappings/mappings.js]: the alias
    expander, the field/type normalizer, the metadata store with its
    loaders and lookups, and the poller.

    Conventions of the embedding.
    - JavaScript values are the trees of [value]: what [JSON.parse] can
      produce, plus [undefined].  Numbers are the integers, printed in
      decimal as JavaScript prints those below 10^21.  Two
      occurrences of an array or of an object in a tree are two distinct
      references.
    - An object is the list of its own enumerable properties in insertion
      order, which is the order [Object.keys] and [Object.entries] follow
      for keys that are not canonical array indices; [lookup] finds own
      properties.
    - A read [o[k]] of a plain object also finds what [Object.prototype]
      defines ([inherited]): a built-in function, or the prototype itself
      for [__proto__].  The module reads the objects of its store by
      computed names.  Where what is read only decides how the call ends,
      the embedding follows the prototype: [recordAlias] throws at
      [curAliases.push], and [getFields] at [_.uniqBy] of a function
      whose [length] is not 0.  Where what is read would become part of a
      result or of the store ([perAliasIndices[iOrA]] in [resolve],
      [perIndexTypes[indices]] in the lookups, [perIndexTypes[index] || {}]
      in [loadIndexAliases]), the trees of [value] have no counterpart for
      it and the embedding reads own properties: the theorems that state
      what such a read yields for a name of the caller or of a payload
      assume names that are not [inherited], and [appendable] names where
      they state the order of the keys.  A key
      [__proto__] in a payload, which would replace the prototype of a
      store object, is not modelled.
    - Strings are sequences of code units, compared unit by unit.
    - A call either returns, throws, or exhausts the recursion budget
      ([outcome]); the module-level variables are threaded explicitly
      ([Store], monad [M]). *)

From Stdlib Require Import List String Ascii ZArith Bool Arith Lia.
From Stdlib Require Import DecimalString.
Import ListNotations.
Open Scope string_scope.
Open Scope list_scope.

Set Warnings "-register-all".


(** ** JavaScript values *)

Module JS.

Inductive value : Type :=
| VUndef
| VNull
| VBool (b : bool)
| VNum (n : Z)
| VStr (s : string)
| VArr (elems : list value)
| VObj (props : list (string * value)).

Inductive error : Type :=
| TypeError            (* thrown by the language: member of null, call of a non-function *)
| Rejection.           (* a rejected promise, re-thrown by [await] *)

Inductive outcome (A : Type) : Type :=
| Ret (a : A)
| Throw (e : error)
| OutOfFuel.

Arguments Ret {A} a.
Arguments Throw {A} e.
Arguments OutOfFuel {A}.

Definition bind {A B} (m : outcome A) (k : A -> outcome B) : outcome B :=
  match m with
  | Ret a => k a
  | Throw e => Throw e
  | OutOfFuel => OutOfFuel
  end.

Notation "x <- m ;; k" := (bind m (fun x => k))
  (at level 61, m at next level, right associativity).

(** [ToBoolean]. *)
Definition truthy (v : value) : bool :=
  match v with
  | VUndef | VNull => false
  | VBool b => b
  | VNum n => negb (n =? 0)%Z
  | VStr s => negb (s =? "")
  | VArr _ | VObj _ => true
  end.

(** [===], also [SameValueZero] on these values. *)
Definition strict_eq (a b : value) : bool :=
  match a, b with
  | VUndef, VUndef => true
  | VNull, VNull => true
  | VBool x, VBool y => Bool.eqb x y
  | VNum x, VNum y => (x =? y)%Z
  | VStr x, VStr y => (x =? y)
  | _, _ => false
  end.

Definition string_of_nat (n : nat) : string :=
  NilEmpty.string_of_uint (Nat.to_uint n).

Definition string_of_Z (n : Z) : string :=
  NilZero.string_of_int (Z.to_int n).

(** [Array.prototype.join]. *)
Fixpoint join (sep : string) (l : list string) : string :=
  match l with
  | [] => ""
  | [x] => x
  | x :: l' => x ++ sep ++ join sep l'
  end.

(** [ToString], as applied by [+] with a string operand, by property
    keys and by the default [sort]. *)
Fixpoint ToString (v : value) : string :=
  match v with
  | VUndef => "undefined"
  | VNull => "null"
  | VBool true => "true"
  | VBool false => "false"
  | VNum n => string_of_Z n
  | VStr s => s
  | VArr l =>
      join "," (map (fun x => match x with
                              | VUndef | VNull => ""
                              | _ => ToString x
                              end) l)
  | VObj _ => "[object Object]"
  end.

(** Own-property lookup in an object. *)
Fixpoint lookup {A} (k : string) (o : list (string * A)) : option A :=
  match o with
  | [] => None
  | (k', v) :: o' => if k =? k' then Some v else lookup k o'
  end.

(** [o[k] = v]: an existing key keeps its position, a new one goes last. *)
Fixpoint obj_set {A} (k : string) (v : A) (o : list (string * A)) : list (string * A) :=
  match o with
  | [] => [(k, v)]
  | (k', v') :: o' => if k =? k' then (k, v) :: o' else (k', v') :: obj_set k v o'
  end.

Definition keys {A} (o : list (string * A)) : list string := map fst o.

(** The functions that [Object.prototype] defines, each with its
    [length]. *)
Definition Object_prototype : list (string * nat) :=
  [("constructor", 1); ("hasOwnProperty", 1); ("isPrototypeOf", 1);
   ("propertyIsEnumerable", 1); ("toLocaleString", 0); ("toString", 0);
   ("valueOf", 0); ("__defineGetter__", 2); ("__defineSetter__", 2);
   ("__lookupGetter__", 1); ("__lookupSetter__", 1)].

(** The names that a plain object inherits: [o[k]] is truthy for them
    although [k] is no key of [o].  [__proto__] is the accessor that
    yields [Object.prototype] itself. *)
Definition inherited (k : string) : bool :=
  (k =? "__proto__") ||
  match lookup k Object_prototype with Some _ => true | None => false end.

Definition indexed {A} (l : list A) : list (string * A) :=
  combine (map string_of_nat (seq 0 (List.length l))) l.

Fixpoint chars (s : string) : list value :=
  match s with
  | EmptyString => []
  | String c s' => VStr (String c EmptyString) :: chars s'
  end.

(** [Object.entries(v)]. *)
Definition Object_entries (v : value) : outcome (list (string * value)) :=
  match v with
  | VUndef | VNull => Throw TypeError
  | VBool _ | VNum _ => Ret []
  | VStr s => Ret (indexed (chars s))
  | VArr l => Ret (indexed l)
  | VObj o => Ret o
  end.

(** [Object.keys(v)]. *)
Definition Object_keys (v : value) : outcome (list string) :=
  es <- Object_entries v ;; Ret (keys es).

(** The canonical array index that a property key denotes, if any. *)
Definition array_index (k : string) : option nat :=
  match NilEmpty.uint_of_string k with
  | Some d => if string_of_nat (Nat.of_uint d) =? k then Some (Nat.of_uint d) else None
  | None => None
  end.

(** [v.k] and [v[k]] for a data property [k]. *)
Definition get_prop (v : value) (k : string) : outcome value :=
  match v with
  | VUndef | VNull => Throw TypeError
  | VBool _ | VNum _ => Ret VUndef
  | VStr s =>
      if k =? "length" then Ret (VNum (Z.of_nat (String.length s)))
      else Ret (match array_index k with Some i => nth i (chars s) VUndef | None => VUndef end)
  | VArr l =>
      if k =? "length" then Ret (VNum (Z.of_nat (List.length l)))
      else Ret (match array_index k with Some i => nth i l VUndef | None => VUndef end)
  | VObj o => Ret (match lookup k o with Some x => x | None => VUndef end)
  end.

(** [xs.flatMap(f)] for a callback that may throw. *)
Fixpoint flatMapM {A B} (f : A -> outcome (list B)) (xs : list A) : outcome (list B) :=
  match xs with
  | [] => Ret []
  | x :: xs' => ys <- f x ;; zs <- flatMapM f xs' ;; Ret (ys ++ zs)
  end.

(** [_.uniqBy(l, iteratee)] for a string-valued iteratee: the first
    element of every iteratee value, in order. *)
Fixpoint uniqBy_from {A} (iteratee : A -> string) (seen : list string) (l : list A) : list A :=
  match l with
  | [] => []
  | x :: l' =>
      if existsb (String.eqb (iteratee x)) seen
      then uniqBy_from iteratee seen l'
      else x :: uniqBy_from iteratee (iteratee x :: seen) l'
  end.

Definition uniqBy {A} (iteratee : A -> string) (l : list A) : list A :=
  uniqBy_from iteratee [] l.

(** Nesting height of a value tree. *)
Fixpoint height (v : value) : nat :=
  match v with
  | VArr l => S (fold_right (fun x m => Nat.max (height x) m) 0 l)
  | VObj o => S (fold_right (fun kv m => Nat.max (height (snd kv)) m) 0 o)
  | _ => 0
  end.

End JS.
Import JS.

(** ** Field/type normalizer *)

Record field : Type := mkField { name : value; type : value }.

(** The iteratee of both [_.uniqBy] calls: [f.name + ':' + f.type]. *)
Definition fieldKey (f : field) : string :=
  ToString (name f) ++ ":" ++ ToString (type f).

(** The closure [applyPathSettings] of [getFieldNamesFromFieldMapping]. *)
Definition applyPathSettings (fieldName : string) (path : value)
    (nestedFieldNames : list field) : list field :=
  let pathType := if truthy path then path else VStr "full" in
  if strict_eq pathType (VStr "full")
  then map (fun f => mkField (VStr (fieldName ++ "." ++ ToString (name f))) (type f))
           nestedFieldNames
  else nestedFieldNames.

(** [fuel] bounds the depth of the calls.  [fieldMapping.path] is read
    when the closure runs; after [fieldMapping.enabled] has been read, no
    read of a member of [fieldMapping] can throw. *)
Fixpoint getFieldNamesFromFieldMapping_ (fuel : nat) (fieldName : string)
    (fieldMapping : value) {struct fuel} : outcome (list field) :=
  match fuel with
  | O => OutOfFuel
  | S fuel' =>
      enabled <- get_prop fieldMapping "enabled" ;;
      if strict_eq enabled (VBool false) then Ret [] else
      path <- get_prop fieldMapping "path" ;;
      properties <- get_prop fieldMapping "properties" ;;
      if truthy properties then
        (* derived object type *)
        nestedFields <- getFieldNamesFromProperties_ fuel' properties ;;
        Ret (applyPathSettings fieldName path nestedFields)
      else
      fieldType <- get_prop fieldMapping "type" ;;
      index_name <- get_prop fieldMapping "index_name" ;;
      let ret := mkField (if truthy index_name then index_name else VStr fieldName)
                         fieldType in
      fields <- get_prop fieldMapping "fields" ;;
      if truthy fields then
        entries <- Object_entries fields ;;
        nestedFields <-
          flatMapM (fun e => getFieldNamesFromFieldMapping_ fuel' (fst e) (snd e))
                   entries ;;
        Ret (ret :: applyPathSettings fieldName path nestedFields)
      else Ret [ret]
  end

with getFieldNamesFromProperties_ (fuel : nat) (properties : value)
    {struct fuel} : outcome (list field) :=
  match fuel with
  | O => OutOfFuel
  | S fuel' =>
      let properties := match properties with VUndef => VObj [] | _ => properties end in
      entries <- Object_entries properties ;;
      fieldList <-
        flatMapM (fun e => getFieldNamesFromFieldMapping_ fuel' (fst e) (snd e))
                 entries ;;
      (* deduping *)
      Ret (uniqBy fieldKey fieldList)
  end.

(** The recursion descends the mapping tree, so a budget of twice its
    height is never exhausted (lemma [getFieldNamesFromProperties_total]). *)
Definition budget (v : value) : nat := 2 * height v + 2.

Definition getFieldNamesFromFieldMapping (fieldName : string) (fieldMapping : value)
    : outcome (list field) :=
  getFieldNamesFromFieldMapping_ (budget fieldMapping) fieldName fieldMapping.

Definition getFieldNamesFromProperties (properties : value) : outcome (list field) :=
  getFieldNamesFromProperties_ (budget properties) properties.

(** ** Metadata store *)

(** The module-level variables [perIndexTypes], [perAliasIndices] and
    [templates].  Every type map that the loaders store is a plain object,
    so the [Array.isArray(typeDict)] branch of [getTypes] is never taken. *)
Record Store : Type := mkStore {
  perIndexTypes : list (string * list (string * list field));
  perAliasIndices : list (string * list string);
  templates : list string
}.

Definition emptyStore : Store := mkStore [] [] [].

Definition set_perIndexTypes (x : list (string * list (string * list field)))
    (st : Store) : Store :=
  mkStore x (perAliasIndices st) (templates st).

Definition set_perAliasIndices (x : list (string * list string)) (st : Store) : Store :=
  mkStore (perIndexTypes st) x (templates st).

Definition set_templates (x : list string) (st : Store) : Store :=
  mkStore (perIndexTypes st) (perAliasIndices st) x.

(** Code that reads and writes the store and may throw; what it wrote
    before throwing stays written. *)
Definition M (A : Type) : Type := Store -> outcome A * Store.

Definition retM {A} (a : A) : M A := fun st => (Ret a, st).

Definition bindM {A B} (m : M A) (k : A -> M B) : M B :=
  fun st =>
    match m st with
    | (Ret a, st') => k a st'
    | (Throw e, st') => (Throw e, st')
    | (OutOfFuel, st') => (OutOfFuel, st')
    end.

Definition lift {A} (o : outcome A) : M A := fun st => (o, st).

Definition modify (f : Store -> Store) : M unit := fun st => (Ret tt, f st).

Notation "x <<- m ;; k" := (bindM m (fun x => k))
  (at level 61, m at next level, right associativity).
Notation "m ;;; k" := (bindM m (fun _ => k))
  (at level 61, right associativity).

(** [xs.forEach(f)]. *)
Fixpoint forEach {A} (f : A -> M unit) (xs : list A) : M unit :=
  match xs with
  | [] => retM tt
  | x :: xs' => f x ;;; forEach f xs'
  end.

Fixpoint foldM {A S} (f : S -> A -> outcome S) (s : S) (xs : list A) : outcome S :=
  match xs with
  | [] => Ret s
  | x :: xs' => s' <- f s x ;; foldM f s' xs'
  end.

(** ** Alias expander *)

(** [SortCompare(a, b) <= 0] for the default comparator: [undefined]
    goes last, everything else is ordered by [ToString]. *)
Definition sort_le (a b : value) : bool :=
  match a, b with
  | VUndef, VUndef => true
  | VUndef, _ => false
  | _, VUndef => true
  | _, _ => String.leb (ToString a) (ToString b)
  end.

Fixpoint insert (x : value) (l : list value) : list value :=
  match l with
  | [] => [x]
  | y :: l' => if sort_le x y then x :: y :: l' else y :: insert x l'
  end.

(** [ret.sort()]: the sort is stable, and every stable sort returns the
    list that this insertion sort returns. *)
Definition sort (l : list value) : list value := fold_right insert [] l.

(** The [reduce] of [expandAliases]: [value] is pushed unless it is
    [===] to [array[index - 1]], which is [undefined] at index 0. *)
Fixpoint drop_repeats (last : value) (array : list value) : list value :=
  match array with
  | [] => []
  | value :: rest =>
      if strict_eq last value
      then drop_repeats value rest
      else value :: drop_repeats value rest
  end.

(** The callback of [indicesOrAliases.map]; an alias list is an array,
    hence truthy.  For a name that is not [inherited]. *)
Definition resolve (st : Store) (iOrA : value) : list value :=
  match lookup (ToString iOrA) (perAliasIndices st) with
  | Some indices => map VStr indices
  | None => [iOrA]
  end.

(** The list [ret] before the final [ret.length > 1 ? ret : ret[0]]. *)
Definition expansion (st : Store) (l : list value) : list value :=
  drop_repeats VUndef (sort (flat_map (resolve st) l)).

Definition expandAliases (st : Store) (indicesOrAliases : value) : outcome value :=
  if negb (truthy indicesOrAliases) then Ret indicesOrAliases else
  match indicesOrAliases with
  | VStr s =>
      let ret := expansion st [VStr s] in
      Ret (if (1 <? List.length ret)%nat then VArr ret else nth 0 ret VUndef)
  | VArr l =>
      let ret := expansion st l in
      Ret (if (1 <? List.length ret)%nat then VArr ret else nth 0 ret VUndef)
  | _ => Throw TypeError       (* [indicesOrAliases.map] is not a function *)
  end.

(** ** Lookups *)

Definition getTemplates (st : Store) : list string := templates st.

(** [sel.includes(x)] for a string [x]. *)
Definition includes (sel : value) (x : string) : outcome bool :=
  match sel with
  | VArr l => Ret (existsb (fun v => strict_eq v (VStr x)) l)
  | VStr s => Ret (match String.index 0 x s with Some _ => true | None => false end)
  | _ => Throw TypeError
  end.

(** [!sel || sel.length === 0 || sel.includes(x)]. *)
Definition selects (sel : value) (x : string) : outcome bool :=
  if negb (truthy sel) then Ret true else
  len <- get_prop sel "length" ;;
  if strict_eq len (VNum 0) then Ret true else includes sel x.

(** [!sel || sel.includes(x)]. *)
Definition selects_index (sel : value) (x : string) : outcome bool :=
  if negb (truthy sel) then Ret true else includes sel x.

(** [getFields(indices, types)] and [getTypes(indices)] call themselves
    once per selected index; [fuel] bounds the depth of these calls.
    [perIndexTypes[indices]] is read for a name that is not [inherited]. *)
Fixpoint getFields (fuel : nat) (st : Store) (indices types : value)
    {struct fuel} : outcome (list field) :=
  match fuel with
  | O => OutOfFuel
  | S fuel' =>
      indices <- expandAliases st indices ;;
      match indices with
      | VStr index =>
          match lookup index (perIndexTypes st) with
          | None => Ret []
          | Some typeDict =>
              match types with
              | VStr t =>
                  match lookup t typeDict with
                  | Some f => Ret (uniqBy fieldKey f)
                  | None =>
                      (* [f] is [undefined], or what the prototype defines:
                         [_.uniqBy] of a function reads [f[0].name] when
                         [f.length] is not 0 *)
                      match lookup t Object_prototype with
                      | Some (S _) => Throw TypeError
                      | _ => Ret []
                      end
                  end
              | _ =>
                  (* filter what we need *)
                  ret <- flatMapM (fun e => b <- selects types (fst e) ;;
                                            Ret (if b then snd e else []))
                                  typeDict ;;
                  Ret (uniqBy fieldKey ret)
              end
          end
      | _ =>
          (* multi index mode. *)
          ret <- flatMapM (fun index => b <- selects indices index ;;
                                        if b then getFields fuel' st (VStr index) types
                                        else Ret [])
                          (keys (perIndexTypes st)) ;;
          Ret (uniqBy fieldKey ret)
      end
  end.

Fixpoint getTypes (fuel : nat) (st : Store) (indices : value)
    {struct fuel} : outcome (list string) :=
  match fuel with
  | O => OutOfFuel
  | S fuel' =>
      indices <- expandAliases st indices ;;
      match indices with
      | VStr index =>
          match lookup index (perIndexTypes st) with
          | None => Ret []
          | Some typeDict => Ret (uniqBy (fun t => t) (keys typeDict))
          end
      | _ =>
          (* multi index mode. *)
          ret <- flatMapM (fun index => b <- selects_index indices index ;;
                                        if b then getTypes fuel' st (VStr index)
                                        else Ret [])
                          (keys (perIndexTypes st)) ;;
          Ret (uniqBy (fun t => t) ret)
      end
  end.

(** [typeof includeAliases === 'undefined' ? true : includeAliases]. *)
Definition getIndices (st : Store) (includeAliases : value) : list string :=
  keys (perIndexTypes st) ++
  (if match includeAliases with VUndef => true | _ => truthy includeAliases end
   then keys (perAliasIndices st)
   else []).

(** ** Loaders *)

Definition loadTemplates (templatesObject : value) : M unit :=
  let templatesObject := match templatesObject with VUndef => VObj [] | _ => templatesObject end in
  ks <<- lift (Object_keys templatesObject) ;;
  modify (set_templates ks).

(** One turn of the outer [forEach] of [loadMappings]: the type map
    [normalizedIndexMappings] of one index. *)
Definition normalizeIndexMapping (indexMapping : value)
    : outcome (list (string * list field)) :=
  wrapped <- get_prop indexMapping "mappings" ;;
  ks <- Object_keys indexMapping ;;
  (* Migrate 1.0.0 mappings. *)
  let indexMapping :=
    if truthy wrapped && (List.length ks =? 1)%nat then wrapped else indexMapping in
  entries <- Object_entries indexMapping ;;
  foldM (fun normalizedIndexMappings e =>
           let typeName := fst e in
           let typeMapping := snd e in
           if typeName =? "properties" then
             fieldList <- getFieldNamesFromProperties typeMapping ;;
             Ret (obj_set typeName fieldList normalizedIndexMappings)
           else Ret (obj_set typeName [] normalizedIndexMappings))
        [] entries.

Definition loadMappings (mappings : value) : M unit :=
  modify (set_perIndexTypes []) ;;;
  entries <<- lift (Object_entries mappings) ;;
  forEach (fun e =>
             normalizedIndexMappings <<- lift (normalizeIndexMapping (snd e)) ;;
             modify (fun st =>
               set_perIndexTypes (obj_set (fst e) normalizedIndexMappings (perIndexTypes st)) st))
          entries.

(** The inner [forEach] of [loadAliases] for one alias of [index]. *)
Definition recordAlias (index alias : string) : M unit :=
  if alias =? index then retM tt     (* alias which is identical to index means no index. *)
  else fun st =>
    match lookup alias (perAliasIndices st) with
    | Some curAliases =>
        (Ret tt, set_perAliasIndices
                   (obj_set alias (curAliases ++ [index]) (perAliasIndices st)) st)
    | None =>
        if inherited alias
        then (Throw TypeError, st)   (* [curAliases] is what the prototype defines: no [push] *)
        else (Ret tt, set_perAliasIndices (obj_set alias [index] (perAliasIndices st)) st)
    end.

(** The outer [forEach] of [loadAliases] for one entry; a new index is
    added as the last key, with an empty type map, which is what the
    source does for an [appendable] name. *)
Definition loadIndexAliases (e : string * value) : M unit :=
  let index := fst e in
  let omdexAliases := snd e in
  (* verify we have an index defined. *)
  modify (fun st =>
    match lookup index (perIndexTypes st) with
    | Some _ => st
    | None => set_perIndexTypes (obj_set index [] (perIndexTypes st)) st
    end) ;;;
  a <<- lift (get_prop omdexAliases "aliases") ;;
  ks <<- lift (Object_keys (if truthy a then a else VObj [])) ;;
  forEach (recordAlias index) ks.

(** [loadAliases] up to, and not including, its last statement. *)
Definition loadAliases_entries (aliases : value) : M unit :=
  modify (set_perAliasIndices []) ;;;
  entries <<- lift (Object_entries aliases) ;;
  forEach loadIndexAliases entries.

Definition loadAliases (aliases : value) : M unit :=
  loadAliases_entries aliases ;;;
  modify (fun st =>
    set_perAliasIndices (obj_set "_all" (getIndices st (VBool false)) (perAliasIndices st)) st).

Definition clear : M unit := modify (fun _ => emptyStore).

(** ** Poller *)

(** How a promise has settled. *)
Inductive settled : Type :=
| Fulfilled (v : value)
| Rejected.

(** [await p]. *)
Definition await (p : settled) : outcome value :=
  match p with
  | Fulfilled v => Ret v
  | Rejected => Throw Rejection
  end.

Inductive fetch : Type := Mappings | Aliases | Templates.

Section Transport.

(** [opensearch.send(http, method, path, null, dataSourceId)] of
    [../opensearch/opensearch]: how the promise it returns settles.
    [http] and [dataSourceId] are only handed on to it. *)
Variable send : string -> string -> settled.

Definition settingKeyToPathMap : list (string * string) :=
  [("fields", "_mapping"); ("indices", "_aliases"); ("templates", "_template")].

Definition retrieveSettings (settingsKey : string) (settingsToRetrieve : value)
    : outcome settled :=
  setting <- get_prop settingsToRetrieve settingsKey ;;
  (* Fetch autocomplete info if setting is set to true, and if user has made changes. *)
  if strict_eq setting (VBool true) then
    Ret (send "GET" (match lookup settingsKey settingKeyToPathMap with
                     | Some path => path
                     | None => "undefined"
                     end))
  else if strict_eq setting (VBool false) then
    (* If the user doesn't want autocomplete suggestions, then clear any that exist *)
    Ret (Fulfilled (VObj []))
  else
    Ret (Fulfilled VUndef).

(** The three [async] functions; a thrown outcome is the rejection of
    the promise they return.  [console.warn] only writes to the console. *)
Definition retrieveMappings (settingsToRetrieve : value) : M unit :=
  p <<- lift (retrieveSettings "fields" settingsToRetrieve) ;;
  response <<- lift (await p) ;;
  mappings <<- lift (get_prop response "body") ;;
  if truthy mappings then
    ks <<- lift (Object_keys mappings) ;;
    let maxMappingSize := (10 * 1024 * 1024 <? Z.of_nat (List.length ks))%Z in
    let mappingsResponse := if maxMappingSize then VStr "{}" else mappings in
    loadMappings mappingsResponse
  else retM tt.

Definition retrieveAliases (settingsToRetrieve : value) : M unit :=
  p <<- lift (retrieveSettings "indices" settingsToRetrieve) ;;
  response <<- lift (await p) ;;
  aliases <<- lift (get_prop response "body") ;;
  if truthy aliases then loadAliases aliases else retM tt.

Definition retrieveTemplates (settingsToRetrieve : value) : M unit :=
  p <<- lift (retrieveSettings "templates" settingsToRetrieve) ;;
  response <<- lift (await p) ;;
  templates <<- lift (get_prop response "body") ;;
  if truthy templates then loadTemplates templates else retM tt.

Definition retrieve (f : fetch) : value -> M unit :=
  match f with
  | Mappings => retrieveMappings
  | Aliases => retrieveAliases
  | Templates => retrieveTemplates
  end.

(** The store once fetch [f] has settled, fulfilled or rejected. *)
Definition settle (f : fetch) (settingsToRetrieve : value) (st : Store) : Store :=
  snd (retrieve f settingsToRetrieve st).

(** The store once the three fetches of [Promise.allSettled] have
    settled in the order [order]. *)
Definition poll_cycle (order : list fetch) (settingsToRetrieve : value)
    (st : Store) : Store :=
  fold_left (fun st f => settle f settingsToRetrieve st) order st.

End Transport.

(** *** Scheduling *)

(** A cycle started by [retrieveAutoCompleteInfo] whose [then] callback
    has not run yet. *)
Record cycle : Type := mkCycle {
  cyc_settingsToRetrieve : value;
  cyc_unsettled : list fetch
}.

(** The module together with the timers of the host.  Time is not
    modelled: a timer set for [POLL_INTERVAL] is pending until it fires
    or is cleared. *)
Record world : Type := mkWorld {
  w_store : Store;
  pollTimeoutId : option nat;        (* [undefined] until the first [setTimeout] *)
  timers : list nat;                 (* timeouts set, not yet fired nor cleared *)
  next_timer : nat;                  (* the id the next [setTimeout] returns *)
  cycles : list (nat * cycle);
  next_cycle : nat
}.

Definition initial : world := mkWorld emptyStore None [] 1 [] 0.

Inductive event : Type :=
| Call (settingsToRetrieve : value)
    (* [retrieveAutoCompleteInfo(http, settings, settingsToRetrieve, dataSourceId)] *)
| Settles (c : nat) (f : fetch) (r : settled)
    (* fetch [f] of cycle [c] settles; [r] is the answer of the transport, if one was asked *)
| AllSettled (c : nat)
    (* the [then] callback of cycle [c] *)
| Fires (t : nat) (polling : bool) (autocomplete : value).
    (* timer [t] fires; what [settings.getPolling()] and [settings.getAutocomplete()] answer *)

Definition fetch_eqb (a b : fetch) : bool :=
  match a, b with
  | Mappings, Mappings | Aliases, Aliases | Templates, Templates => true
  | _, _ => false
  end.

Definition remove_nat (t : nat) (l : list nat) : list nat :=
  filter (fun x => negb (x =? t)%nat) l.

Fixpoint find_cycle (c : nat) (l : list (nat * cycle)) : option cycle :=
  match l with
  | [] => None
  | (c', x) :: l' => if (c =? c')%nat then Some x else find_cycle c l'
  end.

Definition drop_cycle (c : nat) (l : list (nat * cycle)) : list (nat * cycle) :=
  filter (fun x => negb (fst x =? c)%nat) l.

(** [clearSubscriptions()]: [clearTimeout] of the remembered timer, which
    does nothing when that timer has fired or was cleared before. *)
Definition clearSubscriptions (w : world) : world :=
  match pollTimeoutId w with
  | Some t =>
      if negb (t =? 0)%nat
      then mkWorld (w_store w) (pollTimeoutId w) (remove_nat t (timers w))
                   (next_timer w) (cycles w) (next_cycle w)
      else w
  | None => w
  end.

(** The synchronous part of [retrieveAutoCompleteInfo]. *)
Definition retrieveAutoCompleteInfo (settingsToRetrieve : value) (w : world) : world :=
  let w := clearSubscriptions w in
  mkWorld (w_store w) (pollTimeoutId w) (timers w) (next_timer w)
          (cycles w ++ [(next_cycle w, mkCycle settingsToRetrieve [Mappings; Aliases; Templates])])
          (S (next_cycle w)).

Definition step (w : world) (e : event) : option world :=
  match e with
  | Call settingsToRetrieve => Some (retrieveAutoCompleteInfo settingsToRetrieve w)
  | Settles c f r =>
      match find_cycle c (cycles w) with
      | Some cy =>
          if existsb (fetch_eqb f) (cyc_unsettled cy) then
            let cy' := mkCycle (cyc_settingsToRetrieve cy)
                               (filter (fun g => negb (fetch_eqb f g)) (cyc_unsettled cy)) in
            Some (mkWorld (settle (fun _ _ => r) f (cyc_settingsToRetrieve cy) (w_store w))
                          (pollTimeoutId w) (timers w) (next_timer w)
                          (map (fun x => if (fst x =? c)%nat then (c, cy') else x) (cycles w))
                          (next_cycle w))
          else None
      | None => None
      end
  | AllSettled c =>
      match find_cycle c (cycles w) with
      | Some cy =>
          match cyc_unsettled cy with
          | [] =>
              (* Schedule next request. *)
              Some (mkWorld (w_store w) (Some (next_timer w)) (timers w ++ [next_timer w])
                            (S (next_timer w)) (drop_cycle c (cycles w)) (next_cycle w))
          | _ :: _ => None
          end
      | None => None
      end
  | Fires t polling autocomplete =>
      if existsb (Nat.eqb t) (timers w) then
        let w' := mkWorld (w_store w) (pollTimeoutId w) (remove_nat t (timers w))
                          (next_timer w) (cycles w) (next_cycle w) in
        Some (if polling then retrieveAutoCompleteInfo autocomplete w' else w')
      else None
  end.

Fixpoint run (w : world) (es : list event) : option world :=
  match es with
  | [] => Some w
  | e :: es' => match step w e with Some w' => run w' es' | None => None end
  end.

(** The states the module can be in. *)
Inductive reachable : world -> Prop :=
| reach_initial : reachable initial
| reach_step w e w' : reachable w -> step w e = Some w' -> reachable w'.

(** * Vocabulary of the properties *)

(** ** Outcomes and lists *)

(** Two runs agree and the budget was enough. *)
Definition stable {A} (a b : outcome A) : Prop := a = b /\ b <> OutOfFuel.

(** [l] with some elements left out, the others in their order. *)
Inductive subseq {A : Type} : list A -> list A -> Prop :=
| subseq_nil : subseq [] []
| subseq_skip x l l' : subseq l l' -> subseq l (x :: l')
| subseq_keep x l l' : subseq l l' -> subseq (x :: l) (x :: l').

(** [x] stands in [l] at a place before which its iteratee value does
    not occur. *)
Definition first_with {A : Type} (iteratee : A -> string) (l : list A) (x : A) : Prop :=
  exists l1 l2, l = l1 ++ x :: l2 /\ ~ In (iteratee x) (map iteratee l1).

(** ** Normalizer *)

(** [fieldList] of [getFieldNamesFromProperties]: the flattened list
    before deduping. *)
Definition fieldList (properties : value) : outcome (list field) :=
  entries <- Object_entries (match properties with VUndef => VObj [] | _ => properties end) ;;
  flatMapM (fun e => getFieldNamesFromFieldMapping (fst e) (snd e)) entries.

Fixpoint has_colon (s : string) : bool :=
  match s with
  | EmptyString => false
  | String c s' => (c =? ":")%char || has_colon s'
  end.

(** A descriptor as a cluster reports it: a string for a name, and for a
    type a string without a colon. *)
Definition plain_field (f : field) : Prop :=
  match name f, type f with
  | VStr _, VStr t => has_colon t = false
  | _, _ => False
  end.

(** [fieldMapping.k] of an object. *)
Definition member (o : list (string * value)) (k : string) : value :=
  match lookup k o with Some x => x | None => VUndef end.

(** [f] once [f.name = fieldName + '.' + f.name] has run. *)
Definition prefixed (fieldName : string) (f : field) : field :=
  mkField (VStr (fieldName ++ "." ++ ToString (name f))) (type f).

(** [(fieldMapping.path || 'full') === 'full']. *)
Definition full_path (path : value) : bool :=
  negb (truthy path) || strict_eq path (VStr "full").

(** Two fields indexed under one name, and a third. *)
Definition twice_indexed : value :=
  VObj [("x", VObj [("type", VStr "text"); ("index_name", VStr "n")]);
        ("y", VObj [("type", VStr "text"); ("index_name", VStr "n")]);
        ("z", VObj [("type", VStr "keyword")])].

(** Field [a:b] of type [c] and field [a] of type [b:c]. *)
Definition colliding : value :=
  VObj [("a:b", VObj [("type", VStr "c")]);
        ("a", VObj [("type", VStr "b:c")])].

(** [{ idx: { properties: { user: { properties: { name: { type: 'text' } } } } } }]. *)
Definition idx_mappings : value :=
  VObj [("idx", VObj [("properties",
     VObj [("user", VObj [("properties",
        VObj [("name", VObj [("type", VStr "text")])])])])])].

(** [{ path: 'arrayOfLabels', properties: { name: { type: 'text' } } }]. *)
Definition labelled : list (string * value) :=
  [("path", VStr "arrayOfLabels");
   ("properties", VObj [("name", VObj [("type", VStr "text")])])].

(** [{ type: 'text', fields: { raw: { type: 'keyword' } } }]. *)
Definition multi_field : list (string * value) :=
  [("type", VStr "text");
   ("fields", VObj [("raw", VObj [("type", VStr "keyword")])])].

(** [{ path: '', properties: { name: { type: 'text' } } }]. *)
Definition empty_path : value :=
  VObj [("path", VStr "");
        ("properties", VObj [("name", VObj [("type", VStr "text")])])].

(** ** Aliases *)

(** No alias resolves to an index of its own name. *)
Definition no_self_alias (st : Store) : Prop :=
  forall a l, lookup a (perAliasIndices st) = Some l -> ~ In a l.

(** [null] or [undefined]: a value of which no member can be read. *)
Definition nullish (v : value) : bool :=
  match v with
  | VUndef | VNull => true
  | _ => false
  end.

(** [Object.keys(omdexAliases.aliases || {})]: the aliases that the
    entry of an index declares. *)
Definition alias_names (omdexAliases : value) : list string :=
  match get_prop omdexAliases "aliases" with
  | Ret a =>
      match Object_keys (if truthy a then a else VObj []) with
      | Ret ks => ks
      | _ => []
      end
  | _ => []
  end.

(** No alias declared in [entries] bears a name that [Object.prototype]
    defines. *)
Definition plain_aliases (entries : list (string * value)) : bool :=
  forallb (fun e => forallb (fun alias => negb (inherited alias)) (alias_names (snd e)))
          entries.

(** [{ i: { aliases: { constructor: {} } } }]. *)
Definition constructor_alias : value :=
  VObj [("i", VObj [("aliases", VObj [("constructor", VObj [])])])].

(** No index that an alias resolves to bears the name of an alias. *)
Definition targets_are_indices (st : Store) : Prop :=
  forall a l i,
    lookup a (perAliasIndices st) = Some l -> In i l ->
    lookup i (perAliasIndices st) = None.

(** The names of the indices are not names of aliases. *)
Definition indices_are_not_aliases (st : Store) : Prop :=
  forall index, In index (keys (perIndexTypes st)) ->
                lookup index (perAliasIndices st) = None.

(** The names of the indices are names that [Object.prototype] does not
    define. *)
Definition plain_indices (st : Store) : Prop :=
  forall index, In index (keys (perIndexTypes st)) -> inherited index = false.

(** [types] as the lookups document it: a list, a string (here one that
    [Object.prototype] does not define) or a falsy value, meaning all. *)
Definition list_string_or_all (types : value) : bool :=
  match types with
  | VStr t => negb (inherited t)
  | VArr _ => true
  | _ => negb (truthy types)
  end.

(** [!types || types.length === 0 || types.includes(type)] for such
    [types] that are not a string. *)
Definition chosen (types : value) (type : string) : bool :=
  match types with
  | VArr ((_ :: _) as l) => existsb (fun v => strict_eq v (VStr type)) l
  | _ => true
  end.

(** The fields of a type map that [types] selects. *)
Definition selected (types : value) (typeDict : list (string * list field)) : list field :=
  match types with
  | VStr t => match lookup t typeDict with Some f => f | None => [] end
  | _ => flat_map (fun e => if chosen types (fst e) then snd e else []) typeDict
  end.

(** The deduplicated fields of index [index] that [types] selects. *)
Definition index_fields (st : Store) (types : value) (index : string) : list field :=
  match lookup index (perIndexTypes st) with
  | Some typeDict => uniqBy fieldKey (selected types typeDict)
  | None => []
  end.

Definition index_types (st : Store) (index : string) : list string :=
  match lookup index (perIndexTypes st) with
  | Some typeDict => uniqBy (fun t => t) (keys typeDict)
  | None => []
  end.

(** Index [a] with field [f], index [b] with field [g]; then index [a]
    declares the alias [b]. *)
Definition two_fields : value :=
  VObj [("a", VObj [("properties", VObj [("f", VObj [("type", VStr "text")])])]);
        ("b", VObj [("properties", VObj [("g", VObj [("type", VStr "keyword")])])])].

Definition alias_named_as_index : value :=
  VObj [("a", VObj [("aliases", VObj [("b", VObj [])])]); ("b", VObj [])].

(** Each element is at most its successor. *)
Fixpoint chain (a : value) (l : list value) : Prop :=
  match l with
  | [] => True
  | b :: l' => sort_le a b = true /\ chain b l'
  end.

Definition sorted (l : list value) : Prop :=
  match l with
  | [] => True
  | a :: l' => chain a l'
  end.

(** No element is [===] to its predecessor, [last] being the
    predecessor of the first. *)
Fixpoint no_repeats (last : value) (l : list value) : Prop :=
  match l with
  | [] => True
  | x :: l' => strict_eq last x = false /\ no_repeats x l'
  end.

(** [{ a: { aliases: { a: {}, b: {} } } }]. *)
Definition self_aliased : value :=
  VObj [("a", VObj [("aliases", VObj [("a", VObj []); ("b", VObj [])])])].

(** [{ idx1: { aliases: { a1: {} } }, idx2: {} }], and the store after
    [loadAliases] of it. *)
Definition two_indices : value :=
  VObj [("idx1", VObj [("aliases", VObj [("a1", VObj [])])]); ("idx2", VObj [])].

Definition two_index_store : Store :=
  mkStore [("idx1", []); ("idx2", [])]
          [("a1", ["idx1"]); ("_all", ["idx1"; "idx2"])] [].

(** Indices [b] and [c] under alias [a], index [d] under an alias [b]. *)
Definition chained_aliases : value :=
  VObj [("b", VObj [("aliases", VObj [("a", VObj [])])]);
        ("c", VObj [("aliases", VObj [("a", VObj [])])]);
        ("d", VObj [("aliases", VObj [("b", VObj [])])])].

(** Two indices with fields. *)
Definition idx_store : Store :=
  mkStore [("idx1", [("properties", [mkField (VStr "f") (VStr "text")])]);
           ("idx2", [("properties", [mkField (VStr "f") (VStr "text");
                                     mkField (VStr "g") (VStr "keyword")])])]
          [("a1", ["idx1"]); ("_all", ["idx1"; "idx2"])] [].

(** ** Poller *)

Definition settingsKey (f : fetch) : string :=
  match f with
  | Mappings => "fields"
  | Aliases => "indices"
  | Templates => "templates"
  end.

(** [{ fields: false, indices: false, templates: false }]. *)
Definition all_false : value :=
  VObj [("fields", VBool false); ("indices", VBool false); ("templates", VBool false)].

(** A store with one index, one alias and one template. *)
Definition populated : Store :=
  mkStore [("idx", [("properties", [mkField (VStr "f") (VStr "text")])])]
          [("a1", ["idx"]); ("_all", ["idx"])]
          ["t1"].

(** Two calls of [retrieveAutoCompleteInfo], then the fetches of both
    cycles settle, then the two [then] callbacks run. *)
Definition two_calls : list event :=
  [Call all_false; Call all_false;
   Settles 0 Mappings Rejected; Settles 0 Aliases Rejected; Settles 0 Templates Rejected;
   Settles 1 Mappings Rejected; Settles 1 Aliases Rejected; Settles 1 Templates Rejected;
   AllSettled 0; AllSettled 1].

(** An event that is not a call made while a cycle is in flight. *)
Definition calm (w : world) (e : event) : Prop :=
  match e with
  | Call _ => cycles w = []
  | _ => True
  end.

Inductive reachable_calmly : world -> Prop :=
| calm_initial : reachable_calmly initial
| calm_step w e w' :
    reachable_calmly w -> calm w e -> step w e = Some w' -> reachable_calmly w'.

(** At most one timer is pending, the remembered one, and then no cycle
    is in flight. *)
Definition one_timer (w : world) : Prop :=
  next_timer w <> 0 /\
  ((timers w = [] /\ List.length (cycles w) <= 1) \/
   (exists t, timers w = [t] /\ pollTimeoutId w = Some t /\ t <> 0 /\ cycles w = [])).

(** ** Further vocabulary of the poller *)

(** [calm], decided. *)
Definition calmb (w : world) (e : event) : bool :=
  match e with
  | Call _ => match cycles w with [] => true | _ :: _ => false end
  | _ => true
  end.

Fixpoint run_calmly (w : world) (es : list event) : option world :=
  match es with
  | [] => Some w
  | e :: es' =>
      if calmb w e
      then match step w e with Some w' => run_calmly w' es' | None => None end
      else None
  end.

(** One call, its three fetches settle, its [then] callback runs. *)
Definition one_call : list event :=
  [Call all_false;
   Settles 0 Mappings Rejected; Settles 0 Aliases Rejected; Settles 0 Templates Rejected;
   AllSettled 0].

(** The path that [retrieveSettings] asks the transport for. *)
Definition path_of (f : fetch) : string :=
  match f with
  | Mappings => "_mapping"
  | Aliases => "_aliases"
  | Templates => "_template"
  end.

(** A settled request that brings no truthy [body]: a rejection, a
    response of which no [body] can be read, or one whose [body] is falsy. *)
Definition no_body (p : settled) : bool :=
  match p with
  | Rejected => true
  | Fulfilled response =>
      match get_prop response "body" with
      | Ret body => negb (truthy body)
      | _ => true
      end
  end.

(** [{ fields: true, indices: true, templates: true }]. *)
Definition all_true : value :=
  VObj [("fields", VBool true); ("indices", VBool true); ("templates", VBool true)].

(** ** Further vocabulary of the loaders *)

(** The callback of the outer [forEach] of [loadMappings]. *)
Definition storeIndexMapping (e : string * value) : M unit :=
  normalizedIndexMappings <<- lift (normalizeIndexMapping (snd e)) ;;
  modify (fun st =>
    set_perIndexTypes (obj_set (fst e) normalizedIndexMappings (perIndexTypes st)) st).

(** The body of the inner [forEach] of [loadMappings]. *)
Definition storeTypeMapping (normalizedIndexMappings : list (string * list field))
    (e : string * value) : outcome (list (string * list field)) :=
  if fst e =? "properties" then
    fieldList <- getFieldNamesFromProperties (snd e) ;;
    Ret (obj_set (fst e) fieldList normalizedIndexMappings)
  else Ret (obj_set (fst e) [] normalizedIndexMappings).


(** [indexMapping.mappings && Object.keys(indexMapping).length === 1]. *)
Definition is_wrapper (indexMapping : value) : bool :=
  match get_prop indexMapping "mappings", Object_keys indexMapping with
  | Ret wrapped, Ret ks => truthy wrapped && (List.length ks =? 1)%nat
  | _, _ => false
  end.

(** [{ mappings: indexMapping }] around every index mapping. *)
Definition wrap (o : list (string * value)) : list (string * value) :=
  map (fun e => (fst e, VObj [("mappings", snd e)])) o.

(** A type map as [loadMappings] and [loadAliases] store them: every
    field list is free of repeated [name:type] strings, and only the type
    [properties] has fields. *)
Definition normal_type_map (typeDict : list (string * list field)) : Prop :=
  forall t fields, lookup t typeDict = Some fields ->
    NoDup (map fieldKey fields) /\ (t <> "properties" -> fields = []).

Definition normal_store (st : Store) : Prop :=
  forall index typeDict, lookup index (perIndexTypes st) = Some typeDict ->
    normal_type_map typeDict.

(** Every index that an alias resolves to is a key of [perIndexTypes]. *)
Definition targets_known (st : Store) : Prop :=
  forall a l i, lookup a (perAliasIndices st) = Some l -> In i l ->
                In i (keys (perIndexTypes st)).

(** An index with a legacy type [doc] beside [properties]. *)
Definition legacy_types : value :=
  VObj [("logs", VObj [("doc", VObj [("properties",
           VObj [("msg", VObj [("type", VStr "text")])])]);
                       ("properties", VObj [("at", VObj [("type", VStr "date")])])])].

(** [perIndexTypes] of [st'] is that of [st] with indices appended that
    [st] did not have, each with an empty type map, and the templates
    are the same. *)
Definition indices_appended (st st' : Store) : Prop :=
  (exists added,
     perIndexTypes st' = perIndexTypes st ++ map (fun i => (i, [])) added /\
     forall i, In i added -> lookup i (perIndexTypes st) = None) /\
  templates st' = templates st.

(** A name that a plain object appends after its other keys when it is
    set for the first time: not a canonical array index, which goes
    before the string keys, and not a name that [Object.prototype]
    defines, for which [perIndexTypes[index] || {}] is what the prototype
    defines. *)
Definition appendable (k : string) : bool :=
  negb (inherited k) && match array_index k with Some _ => false | None => true end.

(** The indices of [aliases] that [st] does not have bear such names. *)
Definition new_indices_appendable (aliases : value) (st : Store) : Prop :=
  forall entries e,
    Object_entries aliases = Ret entries -> In e entries ->
    lookup (fst e) (perIndexTypes st) = None -> appendable (fst e) = true.

(** Every alias points to known indices, at least one. *)
Definition aliases_point (st : Store) : Prop :=
  targets_known st /\
  forall a l, lookup a (perAliasIndices st) = Some l -> l <> [].

(** ** Further vocabulary of the expander *)





(** A computation that neither reads nor writes [templates]. *)
Definition ignores_templates {A} (m : M A) : Prop :=
  forall t st, m (set_templates t st) = (fst (m st), set_templates t (snd (m st))).

(** Answers of the transport with which the two orders differ. *)
Definition answers (method path : string) : settled :=
  if path =? "_mapping" then Fulfilled (VObj [("body", VObj [("m", VObj [])])])
  else Fulfilled (VObj [("body", VObj [("a", VObj [])])]).

(** The keys of a field mapping that the normalizer reads. *)
Definition read_by_normalizer : list string :=
  ["enabled"; "path"; "properties"; "type"; "index_name"; "fields"].

(** The timers of [w] have distinct ids below [next_timer w], and the
    remembered one is the one set last. *)
Definition newest_remembered (w : world) : Prop :=
  NoDup (timers w) /\
  (forall t, In t (timers w) -> 1 <= t < next_timer w) /\
  (forall t, pollTimeoutId w = Some t -> S t = next_timer w) /\
  1 <= next_timer w.

(** * Facts about values and outcomes *)

Section ValueFacts.

Lemma lookup_In {A} (k : string) (o : list (string * A)) (x : A) :
  lookup k o = Some x -> In (k, x) o.
Proof.
  induction o as [|[k' v] o IH]; simpl; [discriminate|].
  destruct (String.eqb_spec k k') as [->|_].
  - intros [= ->]. now left.
  - intros H. right. now apply IH.
Qed.

Lemma height_In_obj (o : list (string * value)) (kv : string * value) :
  In kv o -> height (snd kv) < height (VObj o).
Proof.
  simpl. induction o as [|e o IH]; simpl; [tauto|].
  intros [->|H]; [lia|]. specialize (IH H). lia.
Qed.

Lemma height_In_arr (l : list value) (x : value) :
  In x l -> height x < height (VArr l).
Proof.
  simpl. induction l as [|e l IH]; simpl; [tauto|].
  intros [->|H]; [lia|]. specialize (IH H). lia.
Qed.

Lemma In_indexed {A} (l : list A) (e : string * A) :
  In e (indexed l) -> In (snd e) l.
Proof.
  destruct e as [k x]. unfold indexed. intros H.
  now apply in_combine_r in H.
Qed.

Lemma In_chars (s : string) (x : value) :
  In x (chars s) -> height x = 0.
Proof.
  induction s as [|c s IH]; simpl; [tauto|].
  intros [<-|H]; [reflexivity|now apply IH].
Qed.

Lemma Object_entries_height (v : value) (es : list (string * value)) (e : string * value) :
  Object_entries v = Ret es -> In e es -> height (snd e) <= height v.
Proof.
  destruct v; simpl; try discriminate; intros [= <-] H; try contradiction.
  - apply In_indexed in H. apply In_chars in H. lia.
  - apply In_indexed in H. apply height_In_arr in H. simpl in H. lia.
  - apply height_In_obj in H. simpl in H. lia.
Qed.

(** A member that is neither [length] nor an index exists on objects
    only. *)
Lemma get_prop_named (v : value) (k : string) :
  array_index k = None -> (k =? "length") = false ->
  get_prop v k =
    match v with
    | VUndef | VNull => Throw TypeError
    | VObj o => Ret (match lookup k o with Some x => x | None => VUndef end)
    | _ => Ret VUndef
    end.
Proof.
  intros Hi Hl. destruct v; simpl; try reflexivity; now rewrite Hl, Hi.
Qed.

Lemma get_prop_height (v : value) (k : string) (x : value) :
  array_index k = None -> (k =? "length") = false ->
  get_prop v k = Ret x -> truthy x = true -> height x < height v.
Proof.
  intros Hi Hl. rewrite (get_prop_named v k Hi Hl).
  destruct v; try discriminate; try (intros [= <-]; discriminate).
  destruct (lookup k props) as [y|] eqn:E; intros [= <-]; [|discriminate].
  intros _. apply lookup_In in E. now apply (height_In_obj props (k, y)).
Qed.

Lemma get_prop_fuel (v : value) (k : string) : get_prop v k <> OutOfFuel.
Proof.
  destruct v; simpl; try discriminate;
    destruct (k =? "length"); discriminate.
Qed.

Lemma Object_entries_fuel (v : value) : Object_entries v <> OutOfFuel.
Proof. destruct v; discriminate. Qed.

End ValueFacts.

Section Stable.

Lemma stable_refl {A} (a : outcome A) : a <> OutOfFuel -> stable a a.
Proof. now split. Qed.

Lemma stable_bind {A B} (a b : outcome A) (f g : A -> outcome B) :
  stable a b -> (forall x, b = Ret x -> stable (f x) (g x)) ->
  stable (bind a f) (bind b g).
Proof.
  intros [-> Hb] H. destruct b as [x| |]; simpl.
  - now apply H.
  - split; [reflexivity|discriminate].
  - contradiction.
Qed.

Lemma stable_flatMapM {A B} (f g : A -> outcome (list B)) (xs : list A) :
  (forall x, In x xs -> stable (f x) (g x)) ->
  stable (flatMapM f xs) (flatMapM g xs).
Proof.
  induction xs as [|x xs IH]; intros H; simpl.
  - split; [reflexivity|discriminate].
  - apply stable_bind; [apply H; now left|].
    intros ys _. apply stable_bind; [apply IH; intros; apply H; now right|].
    intros zs _. split; [reflexivity|discriminate].
Qed.

End Stable.

(** ** The budget of the normalizer is enough *)

Lemma normalizer_fuel (n : nat) :
  (forall fieldName v m, 2 * height v + 1 <= n -> n <= m ->
     stable (getFieldNamesFromFieldMapping_ m fieldName v)
            (getFieldNamesFromFieldMapping_ n fieldName v)) /\
  (forall v m, 2 * height v + 2 <= n -> n <= m ->
     stable (getFieldNamesFromProperties_ m v) (getFieldNamesFromProperties_ n v)).
Proof.
  induction n as [|n [IHm IHp]]; split; intros; try lia.
  - destruct m as [|m]; [lia|]. simpl.
    apply stable_bind; [apply stable_refl, get_prop_fuel|]. intros enabled _.
    destruct (strict_eq enabled (VBool false)); [split; [reflexivity|discriminate]|].
    apply stable_bind; [apply stable_refl, get_prop_fuel|]. intros path _.
    apply stable_bind; [apply stable_refl, get_prop_fuel|]. intros properties Hp.
    destruct (truthy properties) eqn:Tp.
    + apply get_prop_height in Hp; [|reflexivity|reflexivity|assumption].
      apply stable_bind; [apply IHp; lia|]. intros; split; [reflexivity|discriminate].
    + apply stable_bind; [apply stable_refl, get_prop_fuel|]. intros fieldType _.
      apply stable_bind; [apply stable_refl, get_prop_fuel|]. intros index_name _.
      apply stable_bind; [apply stable_refl, get_prop_fuel|]. intros fields Hf.
      destruct (truthy fields) eqn:Tf; [|split; [reflexivity|discriminate]].
      apply get_prop_height in Hf; [|reflexivity|reflexivity|assumption].
      apply stable_bind; [apply stable_refl, Object_entries_fuel|]. intros entries He.
      apply stable_bind; [|intros; split; [reflexivity|discriminate]].
      apply stable_flatMapM. intros e Hin.
      pose proof (Object_entries_height _ _ e He Hin). apply IHm; lia.
  - destruct m as [|m]; [lia|]. simpl.
    set (p := match v with VUndef => VObj [] | _ => v end).
    assert (Hh : height p <= S (height v)) by (destruct v; simpl; lia).
    assert (Hv : forall es e, Object_entries p = Ret es -> In e es ->
                              height (snd e) <= height v).
    { intros es e He Hin. destruct v; try exact (Object_entries_height _ _ e He Hin).
      simpl in He. injection He as <-. contradiction. }
    apply stable_bind; [apply stable_refl, Object_entries_fuel|]. intros entries He.
    apply stable_bind; [|intros; split; [reflexivity|discriminate]].
    apply stable_flatMapM. intros e Hin.
    pose proof (Hv _ _ He Hin). apply IHm; lia.
Qed.

Lemma bind_ext {A B} (a : outcome A) (f g : A -> outcome B) :
  (forall x, a = Ret x -> f x = g x) -> bind a f = bind a g.
Proof. intros H. destruct a; simpl; auto. Qed.

Lemma flatMapM_ext {A B} (f g : A -> outcome (list B)) (xs : list A) :
  (forall x, In x xs -> f x = g x) -> flatMapM f xs = flatMapM g xs.
Proof.
  induction xs as [|x xs IH]; intros H; simpl; [reflexivity|].
  rewrite (H x (or_introl eq_refl)), IH; [reflexivity|].
  intros y Hy. apply H. now right.
Qed.

Lemma getFieldNamesFromFieldMapping_fuel (m : nat) (fieldName : string) (v : value) :
  2 * height v + 1 <= m ->
  getFieldNamesFromFieldMapping_ m fieldName v = getFieldNamesFromFieldMapping fieldName v.
Proof.
  intros H. unfold getFieldNamesFromFieldMapping, budget.
  destruct (normalizer_fuel (2 * height v + 1)) as [Hm _].
  destruct (Hm fieldName v m) as [-> _]; [lia|lia|].
  destruct (Hm fieldName v (2 * height v + 2)) as [-> _]; [lia|lia|reflexivity].
Qed.

Lemma getFieldNamesFromProperties_fuel (m : nat) (v : value) :
  2 * height v + 2 <= m ->
  getFieldNamesFromProperties_ m v = getFieldNamesFromProperties v.
Proof.
  intros H. unfold getFieldNamesFromProperties, budget.
  destruct (normalizer_fuel (2 * height v + 2)) as [_ Hp].
  destruct (Hp v m) as [-> _]; [lia|lia|reflexivity].
Qed.

(** The normalizer always returns or throws. *)
Lemma getFieldNamesFromFieldMapping_total (fieldName : string) (v : value) :
  getFieldNamesFromFieldMapping fieldName v <> OutOfFuel.
Proof.
  unfold getFieldNamesFromFieldMapping, budget.
  destruct (normalizer_fuel (2 * height v + 2)) as [Hm _].
  destruct (Hm fieldName v (2 * height v + 2)) as [_ H]; [lia|lia|exact H].
Qed.

Lemma getFieldNamesFromProperties_total (v : value) :
  getFieldNamesFromProperties v <> OutOfFuel.
Proof.
  unfold getFieldNamesFromProperties, budget.
  destruct (normalizer_fuel (2 * height v + 2)) as [_ Hp].
  destruct (Hp v (2 * height v + 2)) as [_ H]; [lia|lia|exact H].
Qed.

(** The two functions satisfy the recursive equations of the source. *)
Lemma getFieldNamesFromProperties_eq (properties : value) :
  getFieldNamesFromProperties properties =
    (entries <- Object_entries (match properties with VUndef => VObj [] | _ => properties end) ;;
     fieldList <- flatMapM (fun e => getFieldNamesFromFieldMapping (fst e) (snd e)) entries ;;
     Ret (uniqBy fieldKey fieldList)).
Proof.
  unfold getFieldNamesFromProperties at 1. unfold budget.
  replace (2 * height properties + 2) with (S (2 * height properties + 1)) by lia.
  simpl getFieldNamesFromProperties_.
  apply bind_ext. intros entries He.
  f_equal. apply flatMapM_ext. intros e Hin.
  apply getFieldNamesFromFieldMapping_fuel.
  assert (height (snd e) <= height properties); [|lia].
  destruct properties; try exact (Object_entries_height _ _ e He Hin).
  simpl in He. injection He as <-. contradiction.
Qed.

Lemma getFieldNamesFromFieldMapping_eq (fieldName : string) (fieldMapping : value) :
  getFieldNamesFromFieldMapping fieldName fieldMapping =
    (enabled <- get_prop fieldMapping "enabled" ;;
     if strict_eq enabled (VBool false) then Ret [] else
     path <- get_prop fieldMapping "path" ;;
     properties <- get_prop fieldMapping "properties" ;;
     if truthy properties then
       nestedFields <- getFieldNamesFromProperties properties ;;
       Ret (applyPathSettings fieldName path nestedFields)
     else
     fieldType <- get_prop fieldMapping "type" ;;
     index_name <- get_prop fieldMapping "index_name" ;;
     let ret := mkField (if truthy index_name then index_name else VStr fieldName)
                        fieldType in
     fields <- get_prop fieldMapping "fields" ;;
     if truthy fields then
       entries <- Object_entries fields ;;
       nestedFields <-
         flatMapM (fun e => getFieldNamesFromFieldMapping (fst e) (snd e)) entries ;;
       Ret (ret :: applyPathSettings fieldName path nestedFields)
     else Ret [ret]).
Proof.
  unfold getFieldNamesFromFieldMapping at 1. unfold budget.
  replace (2 * height fieldMapping + 2) with (S (2 * height fieldMapping + 1)) by lia.
  simpl getFieldNamesFromFieldMapping_.
  apply bind_ext. intros enabled _.
  destruct (strict_eq enabled (VBool false)); [reflexivity|].
  apply bind_ext. intros path _.
  apply bind_ext. intros properties Hp.
  destruct (truthy properties) eqn:Tp.
  - apply get_prop_height in Hp; [|reflexivity|reflexivity|assumption].
    rewrite getFieldNamesFromProperties_fuel by lia. reflexivity.
  - apply bind_ext. intros fieldType _.
    apply bind_ext. intros index_name _.
    apply bind_ext. intros fields Hf.
    destruct (truthy fields) eqn:Tf; [|reflexivity].
    apply get_prop_height in Hf; [|reflexivity|reflexivity|assumption].
    apply bind_ext. intros entries He.
    f_equal. apply flatMapM_ext. intros e Hin.
    apply getFieldNamesFromFieldMapping_fuel.
    pose proof (Object_entries_height _ _ e He Hin). lia.
Qed.

(** * Facts about [_.uniqBy] *)

Section UniqBy.

Context {A : Type}.
Variable iteratee : A -> string.

Lemma existsb_eqb_In (k : string) (seen : list string) :
  existsb (String.eqb k) seen = true <-> In k seen.
Proof.
  rewrite existsb_exists. split.
  - intros [y [Hy E]]. apply String.eqb_eq in E. now subst.
  - intros H. exists k. split; [assumption|apply String.eqb_refl].
Qed.

Lemma uniqBy_from_In (seen : list string) (l : list A) (x : A) :
  In x (uniqBy_from iteratee seen l) -> In x l /\ ~ In (iteratee x) seen.
Proof.
  revert seen. induction l as [|y l IH]; intros seen; simpl; [tauto|].
  destruct (existsb (String.eqb (iteratee y)) seen) eqn:E.
  - intros H. destruct (IH _ H). tauto.
  - intros [<-|H].
    + split; [now left|]. rewrite <- existsb_eqb_In. now rewrite E.
    + destruct (IH _ H) as [H1 H2]. split; [now right|].
      intros H3. apply H2. now right.
Qed.

Lemma uniqBy_from_NoDup (seen : list string) (l : list A) :
  NoDup (map iteratee (uniqBy_from iteratee seen l)).
Proof.
  revert seen. induction l as [|y l IH]; intros seen; simpl; [constructor|].
  destruct (existsb (String.eqb (iteratee y)) seen); [apply IH|].
  simpl. constructor; [|apply IH].
  rewrite in_map_iff. intros [z [Ez Hz]].
  apply uniqBy_from_In in Hz. destruct Hz as [_ Hz]. apply Hz. now left.
Qed.

Lemma uniqBy_from_subseq (seen : list string) (l : list A) :
  subseq (uniqBy_from iteratee seen l) l.
Proof.
  revert seen. induction l as [|y l IH]; intros seen; simpl; [constructor|].
  destruct (existsb (String.eqb (iteratee y)) seen); constructor; apply IH.
Qed.

Lemma uniqBy_from_first (seen : list string) (l : list A) (x : A) :
  In x (uniqBy_from iteratee seen l) <->
  exists l1 l2, l = l1 ++ x :: l2 /\ ~ In (iteratee x) (seen ++ map iteratee l1).
Proof.
  revert seen. induction l as [|y l IH]; intros seen; simpl.
  - split; [tauto|]. intros [[|? ?] [l2 [E _]]]; discriminate.
  - destruct (existsb (String.eqb (iteratee y)) seen) eqn:E.
    + apply existsb_eqb_In in E. rewrite IH. split.
      * intros [l1 [l2 [-> H]]]. exists (y :: l1), l2. split; [reflexivity|].
        simpl. rewrite in_app_iff in *. simpl. intros [H1|[H1|H1]]; [tauto| |tauto].
        apply H. left. now rewrite <- H1.
      * intros [[|z l1] [l2 [E' H]]]; simpl in E'; injection E' as -> ->.
        -- exfalso. apply H. rewrite in_app_iff. now left.
        -- exists l1, l2. split; [reflexivity|].
           simpl in H. rewrite in_app_iff in *. simpl in H. tauto.
    + assert (Hy : ~ In (iteratee y) seen)
        by (rewrite <- existsb_eqb_In; now rewrite E).
      simpl. rewrite IH. split.
      * intros [<-|[l1 [l2 [-> H]]]].
        -- exists [], l. split; [reflexivity|]. simpl. now rewrite app_nil_r.
        -- exists (y :: l1), l2. split; [reflexivity|].
           simpl in *. rewrite in_app_iff in *. simpl. tauto.
      * intros [[|z l1] [l2 [E' H]]]; simpl in E'; injection E' as -> ->.
        -- now left.
        -- right. exists l1, l2. split; [reflexivity|].
           simpl in *. rewrite in_app_iff in *. simpl in *. tauto.
Qed.

(** [_.uniqBy] keeps exactly the first element of every iteratee value. *)
Lemma uniqBy_first (l : list A) (x : A) :
  In x (uniqBy iteratee l) <-> first_with iteratee l x.
Proof. unfold uniqBy, first_with. now rewrite uniqBy_from_first. Qed.

Lemma uniqBy_NoDup (l : list A) : NoDup (map iteratee (uniqBy iteratee l)).
Proof. apply uniqBy_from_NoDup. Qed.

Lemma uniqBy_subseq (l : list A) : subseq (uniqBy iteratee l) l.
Proof. apply uniqBy_from_subseq. Qed.

(** Every iteratee value of the input is represented in the output. *)
Lemma uniqBy_from_complete (seen : list string) (l : list A) (x : A) :
  In x l -> ~ In (iteratee x) seen ->
  exists y, In y (uniqBy_from iteratee seen l) /\ iteratee y = iteratee x.
Proof.
  revert seen. induction l as [|y l IH]; intros seen; simpl; [tauto|].
  intros Hx Hs.
  destruct (existsb (String.eqb (iteratee y)) seen) eqn:E.
  - apply existsb_eqb_In in E. destruct Hx as [->|Hx]; [contradiction|].
    now apply IH.
  - destruct Hx as [->|Hx]; [exists x; split; [now left|reflexivity]|].
    destruct (String.eqb_spec (iteratee y) (iteratee x)) as [Ek|Ek].
    + exists y. split; [now left|assumption].
    + destruct (IH (iteratee y :: seen) Hx) as [z [Hz Ez]].
      * simpl. tauto.
      * exists z. split; [now right|assumption].
Qed.

Lemma uniqBy_complete (l : list A) (x : A) :
  In x l -> exists y, In y (uniqBy iteratee l) /\ iteratee y = iteratee x.
Proof. intros H. apply uniqBy_from_complete; [assumption|intros []]. Qed.

(** Where the iteratee tells the elements of [l] apart, [_.uniqBy]
    removes repeated elements and nothing else. *)
Lemma uniqBy_injective (l : list A) :
  (forall x y, In x l -> In y l -> iteratee x = iteratee y -> x = y) ->
  NoDup (uniqBy iteratee l) /\ forall x, In x l <-> In x (uniqBy iteratee l).
Proof.
  intros Hinj. split.
  - apply (NoDup_map_inv iteratee), uniqBy_NoDup.
  - intros x. split.
    + intros Hx. destruct (uniqBy_complete l x Hx) as [y [Hy Ey]].
      assert (y = x); [|now subst].
      apply Hinj; [|assumption|assumption].
      now apply (uniqBy_from_In [] l y).
    + intros Hx. now apply (uniqBy_from_In [] l x).
Qed.

End UniqBy.

(** * The normalizer *)

Lemma has_colon_app (a b : string) : has_colon (a ++ String ":"%char b) = true.
Proof.
  induction a as [|c a IH]; simpl; [reflexivity|].
  rewrite IH. apply orb_true_r.
Qed.

Lemma colon_split (n1 n2 t1 t2 : string) :
  has_colon t1 = false -> has_colon t2 = false ->
  (n1 ++ ":" ++ t1 = n2 ++ ":" ++ t2)%string -> n1 = n2 /\ t1 = t2.
Proof.
  intros H1 H2. revert n2.
  induction n1 as [|c n1 IH]; intros [|d n2]; simpl; intros E.
  - injection E as ->. now split.
  - injection E as <- ->. now rewrite has_colon_app in H1.
  - injection E as -> <-. now rewrite has_colon_app in H2.
  - injection E as -> E. destruct (IH _ E) as [-> ->]. now split.
Qed.

Lemma fieldKey_plain (f g : field) :
  plain_field f -> plain_field g -> fieldKey f = fieldKey g -> f = g.
Proof.
  destruct f as [[]  []], g as [[] []]; unfold plain_field, fieldKey; simpl;
    try contradiction.
  intros H1 H2 E. now destruct (colon_split _ _ _ _ H1 H2 E) as [-> ->].
Qed.

(** C4 (as amended).  The normalizer removes duplicates by the string
    [name + ':' + type]: its output keeps, in order, the first descriptor
    of every such string of the flattened list, one descriptor for each.
    Where the descriptors are plain, that string tells the pairs
    (name, type) apart, and the output holds every pair of the flattened
    list exactly once. *)
Theorem getFieldNamesFromProperties_dedup (properties : value) (l : list field) :
  fieldList properties = Ret l ->
  let out := uniqBy fieldKey l in
  getFieldNamesFromProperties properties = Ret out /\
  NoDup (map fieldKey out) /\
  subseq out l /\
  (forall f, In f out <-> first_with fieldKey l f) /\
  (forall f, In f l -> exists g, In g out /\ fieldKey g = fieldKey f) /\
  (Forall plain_field l -> NoDup out /\ forall f, In f l <-> In f out).
Proof.
  intros H out.
  split.
  { rewrite getFieldNamesFromProperties_eq. unfold fieldList in H.
    destruct (Object_entries _) as [entries| |]; simpl in *; try discriminate.
    now rewrite H. }
  split; [apply uniqBy_NoDup|].
  split; [apply uniqBy_subseq|].
  split; [intros f; apply uniqBy_first|].
  split; [intros f; apply uniqBy_complete|].
  intros P. apply uniqBy_injective. rewrite Forall_forall in P.
  intros x y Hx Hy. apply fieldKey_plain; auto.
Qed.

Lemma getFieldNamesFromProperties_dedup_witness :
  let l := [mkField (VStr "n") (VStr "text"); mkField (VStr "n") (VStr "text");
            mkField (VStr "z") (VStr "keyword")] in
  fieldList twice_indexed = Ret l /\
  getFieldNamesFromProperties twice_indexed =
    Ret [mkField (VStr "n") (VStr "text"); mkField (VStr "z") (VStr "keyword")] /\
  NoDup (uniqBy fieldKey l).
Proof.
  intros l.
  assert (H : fieldList twice_indexed = Ret l) by reflexivity.
  assert (P : Forall plain_field l) by (repeat constructor).
  split; [exact H|].
  destruct (getFieldNamesFromProperties_dedup twice_indexed l H) as [E [_ [_ [_ [_ F]]]]].
  split; [exact E|]. exact (proj1 (F P)).
Defined.

(** C4, counterexample.  The descriptors of the fields [a:b] of type [c]
    and [a] of type [b:c] are two distinct pairs (name, type), and the
    normalizer merges them: the second one is not in its output. *)
Lemma getFieldNamesFromProperties_merges_distinct_pairs :
  let f1 := mkField (VStr "a:b") (VStr "c") in
  let f2 := mkField (VStr "a") (VStr "b:c") in
  fieldList colliding = Ret [f1; f2] /\
  (name f1, type f1) <> (name f2, type f2) /\
  getFieldNamesFromProperties colliding = Ret [f1] /\
  ~ (forall out, getFieldNamesFromProperties colliding = Ret out ->
       forall f, In f [f1; f2] -> In f out).
Proof.
  intros f1 f2. split; [reflexivity|]. split; [discriminate|].
  split; [reflexivity|].
  intros H. specialize (H [f1] eq_refl f2 (or_intror (or_introl eq_refl))).
  destruct H as [H|[]]. discriminate.
Qed.

(** ** Path policy *)

Lemma applyPathSettings_policy (fieldName : string) (path : value) (nested : list field) :
  applyPathSettings fieldName path nested =
    if full_path path then map (prefixed fieldName) nested else nested.
Proof.
  unfold applyPathSettings, full_path.
  destruct (truthy path); simpl; reflexivity.
Qed.

(** The example of the specification, from any store in which [idx] is
    not the name of an alias. *)
Lemma loadMappings_getFields_idx (st : Store) (fuel : nat) :
  lookup "idx" (perAliasIndices st) = None ->
  fst (loadMappings idx_mappings st) = Ret tt /\
  getFields (S fuel) (snd (loadMappings idx_mappings st)) (VStr "idx") VUndef =
    Ret [mkField (VStr "user.name") (VStr "text")].
Proof.
  intros H. split; [reflexivity|].
  cbn [getFields]. unfold expandAliases, expansion, resolve.
  cbn [truthy negb String.eqb Ascii.eqb Bool.eqb flat_map ToString].
  change (perAliasIndices (snd (loadMappings idx_mappings st)))
    with (perAliasIndices st).
  rewrite H. reflexivity.
Qed.

(** C5 (as amended).  A descriptor with nested fields: when its [path]
    is ["full"], absent or any other falsy value, every nested name of
    its contribution gets the prefix [fieldName + "."]; when its [path]
    is truthy and not ["full"], the nested names stay as they are.  This
    holds for nested [properties] and for multi-[fields], whose base
    descriptor comes first, without prefix; a disabled descriptor
    contributes nothing.  And [getFields('idx')] after [loadMappings] of
    the example is the one descriptor [user.name] of type [text]. *)
Theorem path_policy (fieldName : string) (o : list (string * value)) :
  let policy nested :=
    if full_path (member o "path") then map (prefixed fieldName) nested else nested in
  (strict_eq (member o "enabled") (VBool false) = true ->
   getFieldNamesFromFieldMapping fieldName (VObj o) = Ret []) /\
  (strict_eq (member o "enabled") (VBool false) = false ->
   (truthy (member o "properties") = true ->
    forall nested,
      getFieldNamesFromProperties (member o "properties") = Ret nested ->
      getFieldNamesFromFieldMapping fieldName (VObj o) = Ret (policy nested)) /\
   (truthy (member o "properties") = false ->
    truthy (member o "fields") = true ->
    forall entries nested,
      Object_entries (member o "fields") = Ret entries ->
      flatMapM (fun e => getFieldNamesFromFieldMapping (fst e) (snd e)) entries = Ret nested ->
      getFieldNamesFromFieldMapping fieldName (VObj o) =
        Ret (mkField (if truthy (member o "index_name") then member o "index_name"
                      else VStr fieldName)
                     (member o "type")
             :: policy nested))) /\
  (forall st fuel,
     lookup "idx" (perAliasIndices st) = None ->
     getFields (S fuel) (snd (loadMappings idx_mappings st)) (VStr "idx") VUndef =
       Ret [mkField (VStr "user.name") (VStr "text")]).
Proof.
  intros policy. split; [|split; [intros He; split|]].
  - intros He. rewrite getFieldNamesFromFieldMapping_eq.
    cbn [get_prop bind]. fold (member o "enabled"). now rewrite He.
  - intros Tp nested Hn. rewrite getFieldNamesFromFieldMapping_eq.
    cbn [get_prop bind]. fold (member o "enabled"). rewrite He.
    fold (member o "properties"). rewrite Tp, Hn. cbn [bind].
    fold (member o "path"). now rewrite applyPathSettings_policy.
  - intros Tp Tf entries nested Hes Hn. rewrite getFieldNamesFromFieldMapping_eq.
    cbn [get_prop bind]. fold (member o "enabled"). rewrite He.
    fold (member o "properties"). rewrite Tp.
    fold (member o "fields"). rewrite Tf, Hes. cbn [bind]. rewrite Hn. cbn [bind].
    fold (member o "path"). now rewrite applyPathSettings_policy.
  - intros st fuel H. now apply loadMappings_getFields_idx.
Qed.

Lemma path_policy_witness :
  getFieldNamesFromFieldMapping "user" (VObj labelled) =
    Ret [mkField (VStr "name") (VStr "text")] /\
  getFieldNamesFromFieldMapping "title" (VObj multi_field) =
    Ret [mkField (VStr "title") (VStr "text"); mkField (VStr "title.raw") (VStr "keyword")] /\
  getFieldNamesFromFieldMapping "off" (VObj [("enabled", VBool false)]) = Ret [] /\
  getFields 1 (snd (loadMappings idx_mappings emptyStore)) (VStr "idx") VUndef =
    Ret [mkField (VStr "user.name") (VStr "text")].
Proof.
  split; [|split; [|split]].
  - exact (proj1 (proj1 (proj2 (path_policy "user" labelled)) eq_refl) eq_refl
             [mkField (VStr "name") (VStr "text")] eq_refl).
  - exact (proj2 (proj1 (proj2 (path_policy "title" multi_field)) eq_refl) eq_refl eq_refl
             [("raw", VObj [("type", VStr "keyword")])]
             [mkField (VStr "raw") (VStr "keyword")] eq_refl eq_refl).
  - exact (proj1 (path_policy "off" [("enabled", VBool false)]) eq_refl).
  - exact (proj2 (proj2 (path_policy "user" labelled)) emptyStore 0 eq_refl).
Defined.

(** C5, counterexample.  A [path] that is present and is not ["full"],
    the empty string: the nested name is prefixed all the same. *)
Lemma path_present_not_full_prefixed :
  get_prop empty_path "path" = Ret (VStr "") /\
  VStr "" <> VStr "full" /\
  getFieldNamesFromFieldMapping "user" empty_path =
    Ret [mkField (VStr "user.name") (VStr "text")] /\
  getFieldNamesFromFieldMapping "user" empty_path <>
    Ret [mkField (VStr "name") (VStr "text")].
Proof.
  split; [reflexivity|]. split; [discriminate|]. split; [reflexivity|discriminate].
Qed.

(** * The alias loader *)

Section ObjectFacts.

Context {A : Type}.

Lemma lookup_obj_set_same (k : string) (v : A) (o : list (string * A)) :
  lookup k (obj_set k v o) = Some v.
Proof.
  induction o as [|[k' v'] o IH]; simpl.
  - now rewrite String.eqb_refl.
  - destruct (String.eqb_spec k k') as [->|N]; simpl.
    + now rewrite String.eqb_refl.
    + destruct (String.eqb_spec k k'); [contradiction|exact IH].
Qed.

Lemma lookup_obj_set_other (k k' : string) (v : A) (o : list (string * A)) :
  k' <> k -> lookup k' (obj_set k v o) = lookup k' o.
Proof.
  intros N. induction o as [|[k0 v0] o IH]; simpl.
  - destruct (String.eqb_spec k' k); [contradiction|reflexivity].
  - destruct (String.eqb_spec k k0) as [->|N0]; simpl.
    + destruct (String.eqb_spec k' k0); [contradiction|reflexivity].
    + destruct (String.eqb_spec k' k0); [reflexivity|exact IH].
Qed.

End ObjectFacts.

Section StoreInvariants.

Variable P : Store -> Prop.

Lemma bindM_inv {A B} (m : M A) (k : A -> M B) (st : Store) :
  P (snd (m st)) -> (forall a st', P st' -> P (snd (k a st'))) ->
  P (snd (bindM m k st)).
Proof.
  unfold bindM. destruct (m st) as [[a|e|] st']; simpl; auto.
Qed.

Lemma forEach_inv {A} (f : A -> M unit) (xs : list A) :
  (forall x st, P st -> P (snd (f x st))) ->
  forall st, P st -> P (snd (forEach f xs st)).
Proof.
  intros Hf. induction xs as [|x xs IH]; intros st H; simpl; [exact H|].
  apply bindM_inv; [now apply Hf|]. intros _ st' H'. now apply IH.
Qed.

End StoreInvariants.

Lemma forEach_returns {A} (f : A -> M unit) (xs : list A) :
  (forall x st, In x xs -> fst (f x st) = Ret tt) ->
  forall st, fst (forEach f xs st) = Ret tt.
Proof.
  induction xs as [|x xs IH]; intros Hf st; simpl; [reflexivity|].
  unfold bindM. pose proof (Hf x st (or_introl eq_refl)) as Hx.
  destruct (f x st) as [[[]|e|] st']; simpl in Hx; try discriminate.
  apply IH. intros y st0 Hy. apply Hf. now right.
Qed.

Lemma recordAlias_no_self_alias (index alias : string) (st : Store) :
  no_self_alias st -> no_self_alias (snd (recordAlias index alias st)).
Proof.
  intros H. unfold recordAlias.
  destruct (String.eqb_spec alias index) as [E|N]; [exact H|].
  destruct (lookup alias (perAliasIndices st)) as [l0|] eqn:E;
    [|destruct (inherited alias); [exact H|]];
    unfold no_self_alias; cbn [snd set_perAliasIndices perAliasIndices];
    intros a l; (destruct (String.eqb_spec a alias) as [->|Na];
      [|rewrite lookup_obj_set_other by assumption; apply H]);
    rewrite lookup_obj_set_same; intros [= <-].
  - rewrite in_app_iff. intros [Hin|[Hin|[]]]; [now apply (H alias l0)|now apply N].
  - intros [Hin|[]]. now apply N.
Qed.

(** [recordAlias] in one piece: it throws for an alias that is not yet a
    key and that the prototype defines, and pushes otherwise. *)
Lemma recordAlias_run (index alias : string) (st : Store) :
  recordAlias index alias st =
    if alias =? index then (Ret tt, st)
    else if match lookup alias (perAliasIndices st) with
            | Some _ => false
            | None => inherited alias
            end
    then (Throw TypeError, st)
    else (Ret tt,
          set_perAliasIndices
            (obj_set alias
               (match lookup alias (perAliasIndices st) with
                | Some l => l | None => [] end ++ [index])
               (perAliasIndices st)) st).
Proof.
  unfold recordAlias. destruct (alias =? index); [reflexivity|].
  destruct (lookup alias (perAliasIndices st)); [reflexivity|].
  now destruct (inherited alias).
Qed.

(** [recordAlias] writes [perAliasIndices] only. *)
Lemma recordAlias_keeps (index alias : string) (st : Store) :
  perIndexTypes (snd (recordAlias index alias st)) = perIndexTypes st /\
  templates (snd (recordAlias index alias st)) = templates st.
Proof.
  rewrite recordAlias_run. destruct (alias =? index); [now split|].
  now destruct (match lookup alias (perAliasIndices st) with
                | Some _ => false | None => inherited alias end).
Qed.

Lemma recordAlias_returns (index alias : string) (st : Store) :
  inherited alias = false -> fst (recordAlias index alias st) = Ret tt.
Proof.
  intros H. unfold recordAlias. rewrite H. destruct (alias =? index); [reflexivity|].
  now destruct (lookup alias (perAliasIndices st)).
Qed.

Lemma loadIndexAliases_no_self_alias (e : string * value) (st : Store) :
  no_self_alias st -> no_self_alias (snd (loadIndexAliases e st)).
Proof.
  intros H. unfold loadIndexAliases.
  apply bindM_inv.
  - simpl. now destruct (lookup (fst e) (perIndexTypes st)).
  - intros _ st1 H1. apply bindM_inv; [exact H1|]. intros a st2 H2.
    apply bindM_inv; [exact H2|]. intros ks st3 H3.
    apply forEach_inv; [|exact H3].
    intros alias st4. apply recordAlias_no_self_alias.
Qed.

Lemma loadAliases_entries_no_self_alias (aliases : value) (st : Store) :
  no_self_alias (snd (loadAliases_entries aliases st)).
Proof.
  unfold loadAliases_entries. apply bindM_inv.
  - simpl. intros a l. discriminate.
  - intros _ st1 H1. apply bindM_inv; [exact H1|]. intros entries st2 H2.
    apply forEach_inv; [|exact H2].
    intros e st3. apply loadIndexAliases_no_self_alias.
Qed.

(** The last statement of [loadAliases] only writes the key [_all]. *)
Lemma loadAliases_other_keys (aliases : value) (st : Store) (a : string) :
  a <> "_all" ->
  lookup a (perAliasIndices (snd (loadAliases aliases st))) =
  lookup a (perAliasIndices (snd (loadAliases_entries aliases st))).
Proof.
  intros N. unfold loadAliases, bindM.
  destruct (loadAliases_entries aliases st) as [[[]|e|] st1]; simpl; try reflexivity.
  now apply lookup_obj_set_other.
Qed.

(** C6.  Self-alias suppression.  The entries that [loadAliases] records
    from the alias declarations never list an index under an alias of its
    own name; so after [loadAliases], whatever its input and however it
    ends, no alias other than the reserved [_all] (which the last
    statement sets to the index names) resolves to an index of its own
    name.  For index [a] declaring the aliases [a] and [b], the alias map
    has no key [a]. *)
Theorem loadAliases_no_self_alias (aliases : value) (st : Store) :
  no_self_alias (snd (loadAliases_entries aliases st)) /\
  (forall a l, a <> "_all" ->
     lookup a (perAliasIndices (snd (loadAliases aliases st))) = Some l -> ~ In a l) /\
  perAliasIndices (snd (loadAliases self_aliased st)) =
    [("b", ["a"]); ("_all", keys (perIndexTypes (snd (loadAliases self_aliased st))))].
Proof.
  split; [apply loadAliases_entries_no_self_alias|]. split.
  - intros a l N. rewrite loadAliases_other_keys by assumption.
    apply loadAliases_entries_no_self_alias.
  - unfold loadAliases, loadAliases_entries, self_aliased. simpl.
    unfold bindM, loadIndexAliases. simpl. unfold bindM, modify, lift. simpl.
    destruct (lookup "a" (perIndexTypes st)); simpl; unfold getIndices; simpl;
      now rewrite app_nil_r.
Qed.

Lemma loadAliases_no_self_alias_witness :
  lookup "b" (perAliasIndices (snd (loadAliases self_aliased emptyStore))) = Some ["a"] /\
  lookup "a" (perAliasIndices (snd (loadAliases self_aliased emptyStore))) = None /\
  ~ In "b" ["a"].
Proof.
  split; [reflexivity|]. split; [reflexivity|].
  refine (proj1 (proj2 (loadAliases_no_self_alias self_aliased emptyStore)) "b" ["a"] _ eq_refl).
  discriminate.
Defined.

Lemma Object_keys_returns (v : value) :
  nullish v = false -> exists ks, Object_keys v = Ret ks.
Proof.
  destruct v; simpl; try discriminate; intros _; unfold Object_keys; simpl; eauto.
Qed.

Lemma loadIndexAliases_returns (e : string * value) (st : Store) :
  nullish (snd e) = false ->
  forallb (fun alias => negb (inherited alias)) (alias_names (snd e)) = true ->
  fst (loadIndexAliases e st) = Ret tt.
Proof.
  intros H Hp. unfold loadIndexAliases, bindM, modify, lift.
  unfold alias_names in Hp.
  assert (Ha : exists a, get_prop (snd e) "aliases" = Ret a).
  { destruct (snd e); simpl in *; try discriminate; eauto. }
  destruct Ha as [a Ea]. rewrite Ea in *.
  destruct (Object_keys_returns (if truthy a then a else VObj [])) as [ks Ek].
  - destruct a; simpl; try reflexivity. now destruct b. now destruct (negb _).
    now destruct (negb _).
  - rewrite Ek in *. apply forEach_returns. intros alias st0 Hin.
    apply recordAlias_returns. rewrite forallb_forall in Hp.
    specialize (Hp alias Hin). now destruct (inherited alias).
Qed.

(** An alias named [constructor]: the load stops with a [TypeError] at
    [curAliases.push], and [_all] is not set. *)
Lemma loadAliases_inherited_alias_throws (st : Store) :
  fst (loadAliases constructor_alias st) = Throw TypeError /\
  perAliasIndices (snd (loadAliases constructor_alias st)) = [].
Proof.
  unfold loadAliases, loadAliases_entries, constructor_alias. simpl.
  unfold bindM, loadIndexAliases. simpl. unfold bindM, modify, lift. simpl.
  now destruct (lookup "i" (perIndexTypes st)).
Qed.

(** C7.  When [loadAliases] returns, [perAliasIndices._all] is the list
    of the keys of [perIndexTypes], which is [getIndices(false)]; it
    returns for every object whose entries are neither [null] nor
    [undefined] and declare no alias under a name that
    [Object.prototype] defines (such an alias makes [curAliases.push]
    throw, lemma [loadAliases_inherited_alias_throws]).  In every store,
    [getIndices(true)] is [getIndices(false)] followed by the alias
    names, hence at least as long. *)
Theorem loadAliases_all (aliases : value) (st : Store) :
  (forall st', loadAliases aliases st = (Ret tt, st') ->
     lookup "_all" (perAliasIndices st') = Some (keys (perIndexTypes st')) /\
     lookup "_all" (perAliasIndices st') = Some (getIndices st' (VBool false))) /\
  (forall entries, Object_entries aliases = Ret entries ->
     forallb (fun e => negb (nullish (snd e))) entries = true ->
     plain_aliases entries = true ->
     fst (loadAliases aliases st) = Ret tt) /\
  getIndices st (VBool true) = getIndices st (VBool false) ++ keys (perAliasIndices st) /\
  List.length (getIndices st (VBool false)) <= List.length (getIndices st (VBool true)).
Proof.
  split; [|split; [|split]].
  - intros st'. unfold loadAliases, bindM.
    destruct (loadAliases_entries aliases st) as [[[]|e|] st1]; try discriminate.
    unfold modify. intros [= <-]. unfold getIndices.
    cbn [perAliasIndices perIndexTypes set_perAliasIndices].
    rewrite lookup_obj_set_same, !app_nil_r. now split.
  - intros entries He Hall Hp.
    unfold loadAliases, loadAliases_entries, bindM, modify, lift.
    rewrite He.
    assert (Hf : fst (forEach loadIndexAliases entries (set_perAliasIndices [] st)) = Ret tt).
    { apply forEach_returns. intros e st0 Hin. apply loadIndexAliases_returns.
      - rewrite forallb_forall in Hall. specialize (Hall e Hin).
        now destruct (nullish (snd e)).
      - unfold plain_aliases in Hp. rewrite forallb_forall in Hp. now apply Hp. }
    destruct (forEach loadIndexAliases entries (set_perAliasIndices [] st))
      as [[[]|e|] st1]; simpl in Hf; try discriminate. reflexivity.
  - unfold getIndices. simpl. now rewrite app_nil_r.
  - unfold getIndices. simpl. rewrite !length_app. simpl. lia.
Qed.

Lemma loadAliases_all_witness :
  loadAliases two_indices emptyStore =
    (Ret tt, mkStore [("idx1", []); ("idx2", [])]
                     [("a1", ["idx1"]); ("_all", ["idx1"; "idx2"])] []) /\
  lookup "_all" [("a1", ["idx1"]); ("_all", ["idx1"; "idx2"])] = Some ["idx1"; "idx2"] /\
  fst (loadAliases two_indices emptyStore) = Ret tt.
Proof.
  split; [reflexivity|]. split.
  - exact (proj1 (proj1 (loadAliases_all two_indices emptyStore) _ eq_refl)).
  - exact (proj1 (proj2 (loadAliases_all two_indices emptyStore)) _ eq_refl eq_refl eq_refl).
Defined.

(** * The alias expander *)

Section Sorting.

Lemma strict_eq_eq (a b : value) : strict_eq a b = true -> a = b.
Proof.
  destruct a, b; simpl; try discriminate; intros H; try reflexivity.
  - now apply Bool.eqb_prop in H; subst.
  - now apply Z.eqb_eq in H; subst.
  - now apply String.eqb_eq in H; subst.
Qed.

Lemma sort_le_total (a b : value) : sort_le a b = false -> sort_le b a = true.
Proof.
  destruct (String.leb_total (ToString a) (ToString b)) as [H|H];
    destruct a, b; simpl in *; try congruence; try discriminate; auto.
Qed.

Lemma chain_sorted (a : value) (l : list value) : chain a l -> sorted l.
Proof. destruct l; simpl; tauto. Qed.

Lemma chain_insert (a x : value) (l : list value) :
  chain a l -> sort_le a x = true -> chain a (insert x l).
Proof.
  revert a. induction l as [|y l IH]; intros a; simpl; [tauto|].
  intros [Hay Hc] Hax.
  destruct (sort_le x y) eqn:E; simpl; [tauto|].
  split; [assumption|]. apply IH; [assumption|]. now apply sort_le_total.
Qed.

Lemma insert_sorted (x : value) (l : list value) : sorted l -> sorted (insert x l).
Proof.
  destruct l as [|y l]; simpl; [tauto|]. intros H.
  destruct (sort_le x y) eqn:E; simpl; [tauto|].
  apply chain_insert; [assumption|]. now apply sort_le_total.
Qed.

Lemma sort_sorted (l : list value) : sorted (sort l).
Proof.
  induction l as [|x l IH]; simpl; [exact I|]. now apply insert_sorted.
Qed.

Lemma insert_In (x y : value) (l : list value) :
  In y (insert x l) <-> y = x \/ In y l.
Proof.
  induction l as [|z l IH]; simpl; [intuition congruence|].
  destruct (sort_le x z); simpl; [intuition congruence|].
  rewrite IH. intuition congruence.
Qed.

Lemma sort_In (y : value) (l : list value) : In y (sort l) <-> In y l.
Proof.
  induction l as [|x l IH]; simpl; [tauto|].
  rewrite insert_In, IH. intuition congruence.
Qed.

(** Sorting a sorted list changes nothing. *)
Lemma sort_of_sorted (l : list value) : sorted l -> sort l = l.
Proof.
  induction l as [|x l IH]; simpl; [reflexivity|].
  intros H. rewrite IH by (now apply chain_sorted with x).
  destruct l as [|y l]; simpl; [reflexivity|].
  destruct H as [-> _]. reflexivity.
Qed.

Lemma drop_repeats_In (last x : value) (l : list value) :
  In x (drop_repeats last l) -> In x l.
Proof.
  revert last. induction l as [|y l IH]; intros last; simpl; [tauto|].
  destruct (strict_eq last y); simpl; intros H; [right; eauto|].
  destruct H; [now left|right; eauto].
Qed.

Lemma drop_repeats_keeps (last x : value) (l : list value) :
  In x l -> In x (drop_repeats last l) \/ x = last.
Proof.
  revert last. induction l as [|y l IH]; intros last; simpl; [tauto|].
  destruct (strict_eq last y) eqn:E.
  - apply strict_eq_eq in E. subst y.
    intros [->|H]; [now right|]. apply IH, H.
  - intros [->|H]; [left; now left|].
    destruct (IH y H) as [H' | ->]; left; [now right|now left].
Qed.

Lemma drop_repeats_no_repeats (last : value) (l : list value) :
  no_repeats last (drop_repeats last l).
Proof.
  revert last. induction l as [|y l IH]; intros last; simpl; [exact I|].
  destruct (strict_eq last y) eqn:E.
  - apply strict_eq_eq in E. subst y. apply IH.
  - simpl. split; [assumption|apply IH].
Qed.

Lemma drop_repeats_chain (a : value) (l : list value) :
  chain a l -> chain a (drop_repeats a l).
Proof.
  revert a. induction l as [|y l IH]; intros a; simpl; [tauto|].
  intros [Hay Hc]. destruct (strict_eq a y) eqn:E.
  - apply strict_eq_eq in E. subst y. now apply IH.
  - simpl. split; [assumption|now apply IH].
Qed.

Lemma drop_repeats_sorted (l : list value) :
  sorted l -> sorted (drop_repeats VUndef l).
Proof.
  destruct l as [|x l]; [simpl; tauto|]. intros H.
  cbn [drop_repeats]. destruct (strict_eq VUndef x) eqn:E.
  - apply chain_sorted with x. now apply drop_repeats_chain.
  - cbn [sorted]. now apply drop_repeats_chain.
Qed.

(** Dropping repeats where there are none changes nothing. *)
Lemma drop_repeats_of_no_repeats (last : value) (l : list value) :
  no_repeats last l -> drop_repeats last l = l.
Proof.
  revert last. induction l as [|y l IH]; intros last; simpl; [reflexivity|].
  intros [-> H]. now rewrite IH.
Qed.

End Sorting.

Section Expansion.

Variable st : Store.

Lemma expansion_sorted (l : list value) : sorted (expansion st l).
Proof. apply drop_repeats_sorted, sort_sorted. Qed.

Lemma expansion_no_repeats (l : list value) : no_repeats VUndef (expansion st l).
Proof. apply drop_repeats_no_repeats. Qed.

Lemma expansion_In (l : list value) (x : value) :
  In x (expansion st l) -> In x (flat_map (resolve st) l).
Proof. intros H. apply drop_repeats_In in H. exact (proj1 (sort_In _ _) H). Qed.

Lemma expansion_keeps (l : list value) (x : value) :
  In x (flat_map (resolve st) l) -> x <> VUndef -> In x (expansion st l).
Proof.
  intros H N. apply (proj2 (sort_In _ _)) in H.
  destruct (drop_repeats_keeps VUndef x _ H); [assumption|contradiction].
Qed.

End Expansion.

(** C3 (as amended).  A falsy input is returned unchanged.  An empty
    list is not: the result is [undefined].  For a non-empty string or a
    list, the list [ret] obtained by substitution, flattening, sorting
    and deduplication is sorted, without repeats, and holds the names of
    the substitution; [expandAliases] returns [ret] when it has more than
    one element, its single element un-wrapped when it has exactly one,
    and [undefined] when it has none. *)
Theorem expandAliases_contract (st : Store) :
  (forall input, truthy input = false -> expandAliases st input = Ret input) /\
  expandAliases st (VArr []) = Ret VUndef /\
  (forall input l,
     input = VArr l \/ (exists s, input = VStr s /\ s <> "" /\ l = [input]) ->
     let ret := expansion st l in
     sorted ret /\ no_repeats VUndef ret /\
     (forall x, In x ret -> In x (flat_map (resolve st) l)) /\
     (forall x, In x (flat_map (resolve st) l) -> x <> VUndef -> In x ret) /\
     (1 < List.length ret -> expandAliases st input = Ret (VArr ret)) /\
     (forall x, ret = [x] -> expandAliases st input = Ret x) /\
     (ret = [] -> expandAliases st input = Ret VUndef)).
Proof.
  split; [|split].
  - intros input T. unfold expandAliases. now rewrite T.
  - reflexivity.
  - intros input l Hin ret.
    assert (E : expandAliases st input =
                Ret (if (1 <? List.length ret)%nat then VArr ret else nth 0 ret VUndef)).
    { destruct Hin as [ -> | [s [-> [Hs ->]]]]; unfold expandAliases; [reflexivity|].
      simpl truthy. destruct (String.eqb_spec s ""); [contradiction|reflexivity]. }
    split; [apply expansion_sorted|].
    split; [apply expansion_no_repeats|].
    split; [apply expansion_In|].
    split; [apply expansion_keeps|].
    split; [|split].
    + intros H. rewrite E. apply Nat.ltb_lt in H. now rewrite H.
    + intros x Hx. rewrite E, Hx. reflexivity.
    + intros Hx. rewrite E, Hx. reflexivity.
Qed.

Lemma expandAliases_contract_witness :
  expandAliases two_index_store (VStr "") = Ret (VStr "") /\
  expandAliases two_index_store (VStr "a1") = Ret (VStr "idx1") /\
  expandAliases two_index_store (VArr [VStr "idx2"; VStr "a1"]) =
    Ret (VArr [VStr "idx1"; VStr "idx2"]).
Proof.
  destruct (expandAliases_contract two_index_store) as [F [_ L]].
  split; [exact (F (VStr "") eq_refl)|]. split.
  - refine (proj1 (proj2 (proj2 (proj2 (proj2 (proj2
             (L (VStr "a1") [VStr "a1"] (or_intror (ex_intro _ "a1" _))))))))
             (VStr "idx1") eq_refl).
    split; [reflexivity|]. split; [discriminate|reflexivity].
  - refine (proj1 (proj2 (proj2 (proj2 (proj2
             (L (VArr [VStr "idx2"; VStr "a1"]) [VStr "idx2"; VStr "a1"]
                (or_introl eq_refl)))))) _).
    simpl. lia.
Defined.

(** C3, counterexample.  The empty list is an empty input, and
    [expandAliases] does not return it unchanged. *)
Lemma expandAliases_empty_list_changed :
  expandAliases emptyStore (VArr []) = Ret VUndef /\
  expandAliases emptyStore (VArr []) <> Ret (VArr []).
Proof. split; [reflexivity|discriminate]. Qed.

(** ** Expanding an expansion *)

Lemma flat_map_singletons {A} (f : A -> list A) (l : list A) :
  (forall x, In x l -> f x = [x]) -> flat_map f l = l.
Proof.
  induction l as [|x l IH]; intros H; simpl; [reflexivity|].
  rewrite (H x (or_introl eq_refl)), IH; [reflexivity|].
  intros y Hy. apply H. now right.
Qed.

Lemma resolved_names_are_not_aliases (st : Store) (l : list value) (x : value) :
  targets_are_indices st -> In x (flat_map (resolve st) l) ->
  lookup (ToString x) (perAliasIndices st) = None.
Proof.
  intros Ht Hx. apply in_flat_map in Hx. destruct Hx as [y [_ Hy]].
  unfold resolve in Hy.
  destruct (lookup (ToString y) (perAliasIndices st)) as [indices|] eqn:E.
  - apply in_map_iff in Hy. destruct Hy as [i [<- Hi]].
    exact (Ht _ _ _ E Hi).
  - destruct Hy as [<-|[]]. exact E.
Qed.

(** A sorted list without repeats, of more than one element, none of
    them the name of an alias, expands to itself. *)
Lemma expandAliases_fixed (st : Store) (r : list value) :
  sorted r -> no_repeats VUndef r -> 1 < List.length r ->
  (forall x, In x r -> lookup (ToString x) (perAliasIndices st) = None) ->
  expandAliases st (VArr r) = Ret (VArr r).
Proof.
  intros Hs Hn Hlen Hx.
  assert (E : expansion st r = r).
  { unfold expansion. rewrite flat_map_singletons.
    - rewrite (sort_of_sorted r Hs). now apply drop_repeats_of_no_repeats.
    - intros x Hin. unfold resolve. now rewrite (Hx x Hin). }
  unfold expandAliases. simpl truthy. simpl negb. cbv iota.
  rewrite E. apply Nat.ltb_lt in Hlen. now rewrite Hlen.
Qed.

(** C8 (as amended).  In a store where no alias resolves to the name of
    an alias, a list of more than one element that is the result of an
    expansion, and that holds no name that [Object.prototype] defines,
    is returned as it is by [expandAliases]: the same names. *)
Theorem expandAliases_idempotent (st : Store) (l : list value) :
  targets_are_indices st ->
  (forall x, In x (expansion st l) -> inherited (ToString x) = false) ->
  1 < List.length (expansion st l) ->
  expandAliases st (VArr (expansion st l)) = Ret (VArr (expansion st l)) /\
  forall r, expandAliases st (VArr (expansion st l)) = Ret (VArr r) ->
            forall x, In x (expansion st l) <-> In x r.
Proof.
  intros Ht _ Hlen.
  assert (R : expandAliases st (VArr (expansion st l)) = Ret (VArr (expansion st l))).
  { apply expandAliases_fixed;
      [apply expansion_sorted|apply expansion_no_repeats|exact Hlen|].
    intros x Hx. apply expansion_In in Hx.
    now apply resolved_names_are_not_aliases with l. }
  split; [exact R|]. intros r Hr. rewrite R in Hr. injection Hr as <-. tauto.
Qed.

Lemma expandAliases_idempotent_witness :
  expandAliases two_index_store (VArr [VStr "_all"]) =
    Ret (VArr [VStr "idx1"; VStr "idx2"]) /\
  expandAliases two_index_store (VArr [VStr "idx1"; VStr "idx2"]) =
    Ret (VArr [VStr "idx1"; VStr "idx2"]).
Proof.
  split; [reflexivity|].
  refine (proj1 (expandAliases_idempotent two_index_store [VStr "_all"] _ _ _)).
  - intros a l i. simpl.
    destruct (a =? "a1"); [intros [= <-] [<-|[]]; reflexivity|].
    destruct (a =? "_all"); [|discriminate].
    intros [= <-] [<-|[<-|[]]]; reflexivity.
  - intros x [<-|[<-|[]]]; reflexivity.
  - simpl. lia.
Defined.

(** C8, counterexample.  After [loadAliases] of an input in which index
    [d] has an alias named like the index [b], alias [a] expands to
    [b, c], and that list expands to [c, d]. *)
Lemma expandAliases_not_idempotent :
  let st := snd (loadAliases chained_aliases emptyStore) in
  expandAliases st (VStr "a") = Ret (VArr [VStr "b"; VStr "c"]) /\
  expandAliases st (VArr [VStr "b"; VStr "c"]) = Ret (VArr [VStr "c"; VStr "d"]) /\
  ~ (forall x, In x [VStr "b"; VStr "c"] <-> In x [VStr "c"; VStr "d"]).
Proof.
  intros st. split; [reflexivity|]. split; [reflexivity|].
  intros H. destruct (proj1 (H (VStr "b")) (or_introl eq_refl)) as [E|[E|[]]];
    discriminate.
Qed.

(** * The lookups *)

Lemma flatMapM_Ret {A B} (g : A -> list B) (xs : list A) :
  flatMapM (fun x => Ret (g x)) xs = Ret (flat_map g xs).
Proof.
  induction xs as [|x xs IH]; simpl; [reflexivity|]. now rewrite IH.
Qed.

Lemma expandAliases_index (st : Store) (index : string) :
  lookup index (perAliasIndices st) = None ->
  expandAliases st (VStr index) = Ret (VStr index).
Proof.
  intros H. unfold expandAliases. simpl truthy.
  destruct (String.eqb_spec index "") as [->|N]; [reflexivity|].
  simpl negb. cbv iota. unfold expansion, resolve. simpl. now rewrite H.
Qed.

Lemma getTypes_index (st : Store) (index : string) (fuel : nat) :
  lookup index (perAliasIndices st) = None ->
  getTypes (S fuel) st (VStr index) = Ret (index_types st index).
Proof.
  intros H. cbn [getTypes]. rewrite (expandAliases_index st index H). cbn [bind].
  unfold index_types. now destruct (lookup index (perIndexTypes st)).
Qed.

Lemma bind_fuel {A B} (a : outcome A) (f : A -> outcome B) :
  a <> OutOfFuel -> (forall x, f x <> OutOfFuel) -> bind a f <> OutOfFuel.
Proof. destruct a; simpl; auto; discriminate. Qed.

Lemma flatMapM_fuel {A B} (f : A -> outcome (list B)) (xs : list A) :
  (forall x, f x <> OutOfFuel) -> flatMapM f xs <> OutOfFuel.
Proof.
  intros H. induction xs as [|x xs IH]; simpl; [discriminate|].
  apply bind_fuel; [apply H|]. intros ys.
  apply bind_fuel; [exact IH|]. discriminate.
Qed.

Lemma selects_fuel (sel : value) (x : string) : selects sel x <> OutOfFuel.
Proof.
  unfold selects. destruct (negb (truthy sel)); [discriminate|].
  apply bind_fuel; [apply get_prop_fuel|]. intros len.
  destruct (strict_eq len (VNum 0)); [discriminate|].
  destruct sel; discriminate.
Qed.

Lemma selects_chosen (types : value) (type : string) :
  list_string_or_all types = true -> (forall t, types <> VStr t) ->
  selects types type = Ret (chosen types type).
Proof.
  intros H N. unfold selects.
  destruct types as [| |b|n|t|l|o]; simpl in *; try reflexivity; try discriminate.
  - now rewrite H.
  - now rewrite H.
  - now destruct (N t).
  - now destruct l.
Qed.

(** [getFields(index, types)] for a name that is not the name of an
    alias. *)
Lemma getFields_index (st : Store) (index : string) (types : value) (fuel : nat) :
  lookup index (perAliasIndices st) = None ->
  list_string_or_all types = true ->
  getFields (S fuel) st (VStr index) types = Ret (index_fields st types index).
Proof.
  intros H T. cbn [getFields]. rewrite (expandAliases_index st index H). cbn [bind].
  unfold index_fields.
  destruct (lookup index (perIndexTypes st)) as [typeDict|]; [|reflexivity].
  assert (F : (forall t, types <> VStr t) ->
              (ret <- flatMapM (fun e => b <- selects types (fst e) ;;
                                         Ret (if b then snd e else []))
                               typeDict ;;
               Ret (uniqBy fieldKey ret)) =
              Ret (uniqBy fieldKey
                     (flat_map (fun e => if chosen types (fst e) then snd e else [])
                               typeDict))).
  { intros N.
    rewrite (flatMapM_ext _ (fun e => Ret (if chosen types (fst e) then snd e else []))).
    - now rewrite flatMapM_Ret.
    - intros e _. now rewrite selects_chosen. }
  destruct types as [| |b|n|t|l|o]; try (apply F; discriminate).
  clear F. simpl in T. unfold selected.
  destruct (lookup t typeDict) as [f|] eqn:E; [reflexivity|].
  unfold inherited in T. apply negb_true_iff, orb_false_iff in T.
  now destruct (lookup t Object_prototype).
Qed.

(** C10 (as amended).  An empty list of indices means all of them.
    [expandAliases([])] is [undefined], not the empty list, and
    [getFields([], types)] and [getTypes([])] run as
    [getFields(undefined, types)] and [getTypes(undefined)] do.  In a
    store where no index bears the name of an alias or a name that
    [Object.prototype] defines, [getFields([], types)] returns, for
    [types] a list, such a string or falsy, the deduplicated
    concatenation over every key of [perIndexTypes] of the fields of that
    index that [types] selects, which are what [getFields(index, types)]
    returns; and [getTypes([])] returns the deduplicated concatenation
    of the types of every index. *)
Theorem empty_list_means_all (st : Store) (types : value) (fuel : nat) :
  expandAliases st (VArr []) = Ret VUndef /\
  expandAliases st (VArr []) <> Ret (VArr []) /\
  getFields fuel st (VArr []) types = getFields fuel st VUndef types /\
  getTypes fuel st (VArr []) = getTypes fuel st VUndef /\
  (indices_are_not_aliases st -> plain_indices st ->
   (list_string_or_all types = true ->
    (forall index, In index (keys (perIndexTypes st)) ->
       getFields (S fuel) st (VStr index) types = Ret (index_fields st types index)) /\
    getFields (S (S fuel)) st (VArr []) types =
      Ret (uniqBy fieldKey (flat_map (index_fields st types) (keys (perIndexTypes st))))) /\
   (forall index, In index (keys (perIndexTypes st)) ->
      getTypes (S fuel) st (VStr index) = Ret (index_types st index)) /\
   getTypes (S (S fuel)) st (VArr []) =
     Ret (uniqBy (fun t => t) (flat_map (index_types st) (keys (perIndexTypes st))))).
Proof.
  split; [reflexivity|]. split; [discriminate|].
  split; [destruct fuel; reflexivity|].
  split; [destruct fuel; reflexivity|].
  intros H _. split; [|split].
  - intros T. split; [intros index Hin; apply getFields_index; auto|].
    cbn [getFields expandAliases truthy negb bind].
    rewrite (flatMapM_ext _ (fun index => Ret (index_fields st types index)));
      [now rewrite flatMapM_Ret|].
    intros index Hin. cbn [selects truthy negb bind].
    apply getFields_index; auto.
  - intros index Hin. apply getTypes_index. now apply H.
  - cbn [getTypes expandAliases truthy negb bind].
    rewrite (flatMapM_ext _ (fun index => Ret (index_types st index)));
      [now rewrite flatMapM_Ret|].
    intros index Hin. cbn [selects_index truthy negb bind].
    apply getTypes_index. now apply H.
Qed.

Lemma empty_list_means_all_witness :
  getFields 2 idx_store (VArr []) VUndef =
    Ret [mkField (VStr "f") (VStr "text"); mkField (VStr "g") (VStr "keyword")] /\
  getFields 5 idx_store (VArr []) (VStr "properties") =
    Ret [mkField (VStr "f") (VStr "text"); mkField (VStr "g") (VStr "keyword")] /\
  getTypes 5 idx_store (VArr []) = Ret ["properties"].
Proof.
  assert (H : indices_are_not_aliases idx_store).
  { intros index [<-|[<-|[]]]; reflexivity. }
  assert (P : plain_indices idx_store).
  { intros index [<-|[<-|[]]]; reflexivity. }
  split; [|split].
  - exact (proj2 (proj1 (proj2 (proj2 (proj2 (proj2
             (empty_list_means_all idx_store VUndef 0)))) H P) eq_refl)).
  - exact (proj2 (proj1 (proj2 (proj2 (proj2 (proj2
             (empty_list_means_all idx_store (VStr "properties") 3)))) H P) eq_refl)).
  - exact (proj2 (proj2 (proj2 (proj2 (proj2 (proj2
             (empty_list_means_all idx_store VUndef 3)))) H P))).
Defined.

(** C10, counterexample.  After [loadMappings] and [loadAliases] of an
    input in which index [a] declares an alias named like the index [b],
    [getFields([])] looks up [b] as the alias that it also is: the field
    [g] of the index [b] is missing from the result, which is not the
    concatenation over every index. *)
Lemma empty_list_misses_aliased_index :
  let st := snd (loadAliases alias_named_as_index (snd (loadMappings two_fields emptyStore))) in
  perIndexTypes st =
    [("a", [("properties", [mkField (VStr "f") (VStr "text")])]);
     ("b", [("properties", [mkField (VStr "g") (VStr "keyword")])])] /\
  lookup "b" (perAliasIndices st) = Some ["a"] /\
  (forall fuel,
     getFields (S (S fuel)) st (VArr []) VUndef = Ret [mkField (VStr "f") (VStr "text")] /\
     getFields (S (S fuel)) st VUndef VUndef = Ret [mkField (VStr "f") (VStr "text")]) /\
  uniqBy fieldKey (flat_map (index_fields st VUndef) (keys (perIndexTypes st))) =
    [mkField (VStr "f") (VStr "text"); mkField (VStr "g") (VStr "keyword")].
Proof.
  intros st. split; [reflexivity|]. split; [reflexivity|].
  split; [intros fuel; split; reflexivity|reflexivity].
Qed.

(** * The poller *)

Section Settings.

Variable send : string -> string -> settled.

(** A fetch whose setting is not [true] leaves the store as it is: with
    [false] the awaited value [{}] has no [body], with anything else the
    awaited value is [undefined] and reading its [body] throws. *)
Lemma unselected_fetch_keeps_store (f : fetch) (o : list (string * value)) (st : Store) :
  strict_eq (member o (settingsKey f)) (VBool true) = false ->
  snd (retrieve send f (VObj o) st) = st /\
  (strict_eq (member o (settingsKey f)) (VBool false) = true ->
   fst (retrieve send f (VObj o) st) = Ret tt).
Proof.
  intros H.
  destruct f; simpl in *; unfold retrieveMappings, retrieveAliases, retrieveTemplates,
    retrieveSettings, bindM, lift; cbn [get_prop bind];
    match goal with |- context [lookup ?k o] => fold (member o k) end;
    rewrite H; destruct (strict_eq _ (VBool false)); simpl; split; auto; discriminate.
Qed.

(** C1.  What the code does where the claim expects the sections to be
    cleared: with the three settings [false], a poll cycle leaves the
    store as it was, in whatever order the fetches settle; a populated
    store stays populated. *)
Theorem false_settings_keep_sections (order : list fetch) (st : Store) :
  poll_cycle send order all_false st = st /\
  perIndexTypes (poll_cycle send order all_false populated) <> [] /\
  perAliasIndices (poll_cycle send order all_false populated) <> [] /\
  templates (poll_cycle send order all_false populated) <> [].
Proof.
  assert (K : forall s, poll_cycle send order all_false s = s).
  { intros s. induction order as [|f order IH]; simpl; [reflexivity|].
    assert (E : settle send f all_false s = s)
      by (unfold settle; apply unselected_fetch_keeps_store; now destruct f).
    rewrite E. exact IH. }
  rewrite !K. repeat split; discriminate.
Qed.

End Settings.

(** C2.  What the code does with a mappings response of [o], the
    setting being [true]: when [o] has more than [10 * 1024 * 1024] keys,
    [loadMappings] is given the string ['{}'], whose two characters become
    two indices [0] and [1] (enumerated in this order), each with one
    type [0]; loading the empty object would leave no index. *)
Theorem oversized_mappings_leave_two_indices (o : list (string * value)) (st : Store) :
  let send := fun _ _ : string => Fulfilled (VObj [("body", VObj o)]) in
  let st' := snd (retrieveMappings send (VObj [("fields", VBool true)]) st) in
  perIndexTypes st' =
    (if (10 * 1024 * 1024 <? Z.of_nat (List.length o))%Z
     then [("0", [("0", [])]); ("1", [("0", [])])]
     else perIndexTypes (snd (loadMappings (VObj o) st))) /\
  perIndexTypes (snd (loadMappings (VStr "{}") st)) = [("0", [("0", [])]); ("1", [("0", [])])] /\
  perIndexTypes (snd (loadMappings (VObj []) st)) = [].
Proof.
  intros send st'. split; [|split; reflexivity].
  unfold st', retrieveMappings, retrieveSettings, bindM, lift, send.
  cbn [get_prop lookup String.eqb Ascii.eqb Bool.eqb bind strict_eq await truthy
       Object_keys Object_entries].
  unfold keys. rewrite length_map.
  destruct (10 * 1024 * 1024 <? Z.of_nat (List.length o))%Z; reflexivity.
Qed.

(** ** Scheduling *)

Lemma run_reachable (es : list event) (w w' : world) :
  reachable w -> run w es = Some w' -> reachable w'.
Proof.
  revert w. induction es as [|e es IH]; intros w Hw; simpl.
  - now intros [= <-].
  - destruct (step w e) as [w1|] eqn:E; [|discriminate].
    apply IH. now apply reach_step with w e.
Qed.

(** C9.  What the code does when [retrieveAutoCompleteInfo] is called
    twice before the fetches of the first call have settled: neither call
    finds a timer to clear, each cycle sets its own, and two timers are
    pending, of which [pollTimeoutId] remembers the second. *)
Theorem two_calls_two_timers :
  exists w, run initial two_calls = Some w /\ reachable w /\
            timers w = [1; 2] /\ pollTimeoutId w = Some 2.
Proof.
  assert (R : run initial two_calls = Some (mkWorld emptyStore (Some 2) [1; 2] 3 [] 2))
    by (vm_compute; reflexivity).
  exists (mkWorld emptyStore (Some 2) [1; 2] 3 [] 2).
  split; [exact R|]. split; [|split; reflexivity].
  apply run_reachable with two_calls initial; [constructor|exact R].
Qed.

Lemma remove_nat_single (t : nat) : remove_nat t [t] = [].
Proof. unfold remove_nat. simpl. now rewrite Nat.eqb_refl. Qed.

Lemma clearSubscriptions_one_timer (w : world) :
  one_timer w -> cycles w = [] ->
  timers (clearSubscriptions w) = [] /\
  cycles (clearSubscriptions w) = [] /\
  next_timer (clearSubscriptions w) = next_timer w.
Proof.
  intros [Hn [[Ht Hc]|[t [Ht [Hp [N Hc]]]]]] Hcy; unfold clearSubscriptions.
  - destruct (pollTimeoutId w) as [t|]; [|auto].
    destruct (negb (t =? 0)%nat); simpl; rewrite ?Ht; auto.
  - rewrite Hp. apply Nat.eqb_neq in N. rewrite N. simpl.
    rewrite Ht, remove_nat_single. auto.
Qed.

Lemma retrieveAutoCompleteInfo_one_timer (s : value) (w : world) :
  one_timer w -> cycles w = [] -> one_timer (retrieveAutoCompleteInfo s w).
Proof.
  intros H Hc. destruct (clearSubscriptions_one_timer w H Hc) as [Ht [Hcy Hn]].
  unfold retrieveAutoCompleteInfo, one_timer. simpl.
  rewrite Ht, Hcy, Hn. split; [apply H|]. left. simpl. split; [reflexivity|lia].
Qed.

Lemma reachable_calmly_one_timer (w : world) : reachable_calmly w -> one_timer w.
Proof.
  intros R. induction R as [|w e w' R IH C S].
  - split; [discriminate|]. left. simpl. split; [reflexivity|lia].
  - destruct e as [s|c f r|c|t polling autocomplete]; simpl in S.
    + injection S as <-. now apply retrieveAutoCompleteInfo_one_timer.
    + destruct (find_cycle c (cycles w)) as [cy|]; [|discriminate].
      destruct (existsb _ _); [|discriminate]. injection S as <-.
      destruct IH as [Hn [[Ht Hc]|[t [Ht [Hp [N Hc]]]]]]; split; simpl; auto.
      * left. split; [assumption|]. now rewrite length_map.
      * right. exists t. rewrite Hc. simpl. auto.
    + destruct (find_cycle c (cycles w)) as [cy|] eqn:F; [|discriminate].
      destruct (cyc_unsettled cy); [|discriminate]. injection S as <-.
      destruct IH as [Hn [[Ht Hc]|[t [Ht [Hp [N Hc]]]]]].
      * split; [simpl; lia|]. right. exists (next_timer w). simpl.
        rewrite Ht. repeat split; auto.
        destruct (cycles w) as [|[c0 cy0] [|? ?]]; simpl in *; try discriminate;
          try lia.
        unfold drop_cycle. simpl.
        destruct (c =? c0)%nat eqn:E; [|discriminate].
        apply Nat.eqb_eq in E. subst. now rewrite Nat.eqb_refl.
      * rewrite Hc in F. discriminate.
    + destruct (existsb (Nat.eqb t) (timers w)) eqn:E; [|discriminate].
      injection S as <-.
      destruct IH as [Hn [[Ht Hc]|[t0 [Ht [Hp [N Hc]]]]]].
      * rewrite Ht in E. discriminate.
      * rewrite Ht in E. simpl in E. rewrite orb_false_r in E.
        apply Nat.eqb_eq in E. subst t0.
        assert (Q : one_timer (mkWorld (w_store w) (pollTimeoutId w)
                               (remove_nat t (timers w)) (next_timer w)
                               (cycles w) (next_cycle w))).
        { split; [exact Hn|]. left. simpl. rewrite Ht, remove_nat_single, Hc.
          simpl. split; [reflexivity|lia]. }
        destruct polling; [|exact Q].
        apply retrieveAutoCompleteInfo_one_timer; [exact Q|exact Hc].
Qed.

Lemma run_calmly_reachable (es : list event) (w w' : world) :
  reachable_calmly w -> run_calmly w es = Some w' -> reachable_calmly w'.
Proof.
  revert w. induction es as [|e es IH]; intros w Hw; simpl.
  - now intros [= <-].
  - destruct (calmb w e) eqn:C; [|discriminate].
    destruct (step w e) as [w1|] eqn:E; [|discriminate].
    apply IH. apply calm_step with w e; [assumption| |assumption].
    destruct e; simpl in *; auto. now destruct (cycles w).
Qed.

(** X1.  Where [retrieveAutoCompleteInfo] is never called while a cycle
    is in flight, at most one timer is pending in every state: it is the
    one that [pollTimeoutId] remembers, and while it is pending no cycle
    is in flight. *)
Theorem single_timer_when_calls_do_not_overlap (w : world) :
  reachable_calmly w -> one_timer w /\ List.length (timers w) <= 1.
Proof.
  intros R. pose proof (reachable_calmly_one_timer w R) as I.
  split; [exact I|].
  destruct I as [_ [[-> _]|[t [-> _]]]]; simpl; lia.
Qed.

Lemma single_timer_when_calls_do_not_overlap_witness :
  run_calmly initial one_call = Some (mkWorld emptyStore (Some 1) [1] 2 [] 1) /\
  List.length (timers (mkWorld emptyStore (Some 1) [1] 2 [] 1)) <= 1.
Proof.
  assert (R : run_calmly initial one_call = Some (mkWorld emptyStore (Some 1) [1] 2 [] 1))
    by (vm_compute; reflexivity).
  split; [exact R|].
  exact (proj2 (single_timer_when_calls_do_not_overlap _
                  (run_calmly_reachable one_call initial _ calm_initial R))).
Defined.

(** X2.  Where calls do not overlap, a timer that fires finds no cycle
    in flight and is the only one pending.  If [settings.getPolling()]
    is then false, the poller is left idle: no timer and no cycle.  If it
    is true, no timer is pending and the one cycle in flight was started
    with what [settings.getAutocomplete()] answered at that moment. *)
Theorem timer_fires_alone (w w' : world) (t : nat) (polling : bool) (autocomplete : value) :
  reachable_calmly w ->
  step w (Fires t polling autocomplete) = Some w' ->
  timers w = [t] /\ cycles w = [] /\ timers w' = [] /\
  cycles w' =
    (if polling
     then [(next_cycle w, mkCycle autocomplete [Mappings; Aliases; Templates])]
     else []) /\
  w_store w' = w_store w.
Proof.
  intros R S. pose proof (reachable_calmly_one_timer w R) as I.
  simpl in S. destruct (existsb (Nat.eqb t) (timers w)) eqn:E; [|discriminate].
  injection S as <-.
  destruct I as [Hn [[Ht Hc]|[t0 [Ht [Hp [N Hc]]]]]]; [rewrite Ht in E; discriminate|].
  rewrite Ht in E. simpl in E. rewrite orb_false_r in E.
  apply Nat.eqb_eq in E. subst t0.
  split; [exact Ht|]. split; [exact Hc|].
  destruct polling; simpl.
  - unfold retrieveAutoCompleteInfo, clearSubscriptions. simpl. rewrite Hp.
    apply Nat.eqb_neq in N. rewrite N. simpl.
    rewrite Ht, remove_nat_single, Hc. auto.
  - rewrite Ht, remove_nat_single, Hc. auto.
Qed.

Lemma timer_fires_alone_witness :
  step (mkWorld emptyStore (Some 1) [1] 2 [] 1) (Fires 1 true all_false) =
    Some (mkWorld emptyStore (Some 1) [] 2
            [(1, mkCycle all_false [Mappings; Aliases; Templates])] 2) /\
  timers (mkWorld emptyStore (Some 1) [1] 2 [] 1) = [1].
Proof.
  assert (R : run_calmly initial one_call = Some (mkWorld emptyStore (Some 1) [1] 2 [] 1))
    by (vm_compute; reflexivity).
  assert (S : step (mkWorld emptyStore (Some 1) [1] 2 [] 1) (Fires 1 true all_false) =
              Some (mkWorld emptyStore (Some 1) [] 2
                      [(1, mkCycle all_false [Mappings; Aliases; Templates])] 2))
    by (vm_compute; reflexivity).
  split; [exact S|].
  exact (proj1 (timer_fires_alone _ _ 1 true all_false
                  (run_calmly_reachable one_call initial _ calm_initial R) S)).
Defined.

(** ** Requests that bring nothing *)

Lemma retrieve_without_body (send : string -> string -> settled) (f : fetch)
    (settingsToRetrieve : value) (st : Store) :
  no_body (send "GET" (path_of f)) = true ->
  snd (retrieve send f settingsToRetrieve st) = st.
Proof.
  intros H.
  destruct f; simpl in *;
    unfold retrieveMappings, retrieveAliases, retrieveTemplates, retrieveSettings,
      bindM, lift;
    (destruct (get_prop settingsToRetrieve _) as [setting| |]; [|reflexivity..]);
    cbn [bind];
    (destruct (strict_eq setting (VBool true));
     [ cbn [lookup settingKeyToPathMap String.eqb Ascii.eqb Bool.eqb];
       destruct (send "GET" _) as [response|]; [|reflexivity];
       cbn [await no_body] in *;
       destruct (get_prop response "body") as [body| |]; [|reflexivity..];
       destruct (truthy body); [discriminate|reflexivity]
     | destruct (strict_eq setting (VBool false)); reflexivity ]).
Qed.

(** X3.  A fetch whose request is rejected, or answered without a
    truthy [body], leaves the store as it is, whatever the settings; so a
    poll cycle in which the three requests fail changes nothing, in
    whatever order they settle. *)
Theorem failed_requests_keep_store (send : string -> string -> settled)
    (settingsToRetrieve : value) :
  (forall f st, no_body (send "GET" (path_of f)) = true ->
                snd (retrieve send f settingsToRetrieve st) = st) /\
  ((forall f, no_body (send "GET" (path_of f)) = true) ->
   forall order st, poll_cycle send order settingsToRetrieve st = st).
Proof.
  split; [intros f st; apply retrieve_without_body|].
  intros H order. induction order as [|f order IH]; intros st; simpl; [reflexivity|].
  unfold settle. rewrite retrieve_without_body by apply H. apply IH.
Qed.

Lemma failed_requests_keep_store_witness :
  poll_cycle (fun _ _ => Rejected) [Aliases; Templates; Mappings] all_true populated =
    populated.
Proof.
  exact (proj2 (failed_requests_keep_store (fun _ _ => Rejected) all_true)
           (fun f => eq_refl) [Aliases; Templates; Mappings] populated).
Defined.

(** * The mappings loader *)

Lemma loadMappings_unfold (mappings : value) :
  loadMappings mappings =
    (modify (set_perIndexTypes []) ;;;
     entries <<- lift (Object_entries mappings) ;;
     forEach storeIndexMapping entries).
Proof. reflexivity. Qed.

Lemma normalizeIndexMapping_unfold (indexMapping : value) :
  normalizeIndexMapping indexMapping =
    (wrapped <- get_prop indexMapping "mappings" ;;
     ks <- Object_keys indexMapping ;;
     entries <- Object_entries
                  (if truthy wrapped && (List.length ks =? 1)%nat
                   then wrapped else indexMapping) ;;
     foldM storeTypeMapping [] entries).
Proof. reflexivity. Qed.

Lemma storeIndexMapping_eq (e : string * value) (st : Store) :
  storeIndexMapping e st =
    match normalizeIndexMapping (snd e) with
    | Ret n => (Ret tt, set_perIndexTypes (obj_set (fst e) n (perIndexTypes st)) st)
    | Throw x => (Throw x, st)
    | OutOfFuel => (OutOfFuel, st)
    end.
Proof.
  unfold storeIndexMapping, bindM, lift, modify.
  now destruct (normalizeIndexMapping (snd e)).
Qed.

Lemma forEach_app {A} (f : A -> M unit) (xs ys : list A) (st : Store) :
  forEach f (xs ++ ys) st = (forEach f xs ;;; forEach f ys) st.
Proof.
  revert st. induction xs as [|x xs IH]; intros st; simpl.
  - reflexivity.
  - unfold bindM. destruct (f x st) as [[[]|e|] st']; try reflexivity.
    rewrite IH. reflexivity.
Qed.

(** What the loop of [loadMappings] does depends on [perIndexTypes]
    only, and it writes nothing else. *)
Lemma storeIndexMappings_frame (entries : list (string * value)) (st1 st2 : Store) :
  perIndexTypes st1 = perIndexTypes st2 ->
  fst (forEach storeIndexMapping entries st1) = fst (forEach storeIndexMapping entries st2) /\
  perIndexTypes (snd (forEach storeIndexMapping entries st1)) =
    perIndexTypes (snd (forEach storeIndexMapping entries st2)) /\
  perAliasIndices (snd (forEach storeIndexMapping entries st1)) = perAliasIndices st1 /\
  templates (snd (forEach storeIndexMapping entries st1)) = templates st1.
Proof.
  revert st1 st2. induction entries as [|e entries IH]; intros st1 st2 H; simpl.
  - auto.
  - unfold bindM. rewrite !storeIndexMapping_eq.
    destruct (normalizeIndexMapping (snd e)) as [n| |]; simpl; auto.
    rewrite H.
    destruct (IH (set_perIndexTypes (obj_set (fst e) n (perIndexTypes st2)) st1)
                 (set_perIndexTypes (obj_set (fst e) n (perIndexTypes st2)) st2)
                 eq_refl) as [A [B [C D]]].
    auto.
Qed.

(** X4.  [loadMappings] replaces [perIndexTypes] wholesale: its outcome
    and the [perIndexTypes] it leaves are the same from any two stores,
    and it leaves [perAliasIndices] and [templates] as they were. *)
Theorem loadMappings_replaces (mappings : value) (st1 st2 : Store) :
  fst (loadMappings mappings st1) = fst (loadMappings mappings st2) /\
  perIndexTypes (snd (loadMappings mappings st1)) =
    perIndexTypes (snd (loadMappings mappings st2)) /\
  perAliasIndices (snd (loadMappings mappings st1)) = perAliasIndices st1 /\
  templates (snd (loadMappings mappings st1)) = templates st1.
Proof.
  rewrite !loadMappings_unfold. unfold bindM, modify, lift. simpl.
  destruct (Object_entries mappings) as [entries| |]; simpl; auto.
  apply (storeIndexMappings_frame entries (set_perIndexTypes [] st1)
           (set_perIndexTypes [] st2) eq_refl).
Qed.

(** ** Payloads without [null] *)










(** ** Keys of a written object *)

Section ObjSetKeys.

Context {A : Type}.

Lemma lookup_None_keys (k : string) (o : list (string * A)) :
  lookup k o = None <-> ~ In k (keys o).
Proof.
  induction o as [|[k' v] o IH]; simpl; [tauto|].
  destruct (String.eqb_spec k k') as [->|N].
  - split; [discriminate|]. intros H. exfalso. apply H. now left.
  - rewrite IH. split; [intros H [E|E]; [now apply N|now apply H]|tauto].
Qed.

Lemma obj_set_new (k : string) (v : A) (o : list (string * A)) :
  lookup k o = None -> obj_set k v o = o ++ [(k, v)].
Proof.
  induction o as [|[k' v'] o IH]; simpl; [reflexivity|].
  destruct (String.eqb_spec k k'); [discriminate|].
  intros H. now rewrite IH.
Qed.

Lemma keys_obj_set_In (k x : string) (v : A) (o : list (string * A)) :
  In x (keys (obj_set k v o)) <-> x = k \/ In x (keys o).
Proof.
  induction o as [|[k' v'] o IH]; simpl; [intuition congruence|].
  destruct (String.eqb_spec k k') as [->|N]; simpl.
  - intuition congruence.
  - rewrite IH. intuition congruence.
Qed.

End ObjSetKeys.






(** ** What is stored for an index *)

Lemma storeIndexMappings_lookup (entries : list (string * value)) (st st' : Store) :
  forEach storeIndexMapping entries st = (Ret tt, st') ->
  NoDup (keys entries) ->
  (forall index indexMapping, In (index, indexMapping) entries ->
     exists typeDict, normalizeIndexMapping indexMapping = Ret typeDict /\
                      lookup index (perIndexTypes st') = Some typeDict) /\
  (forall index, ~ In index (keys entries) ->
     lookup index (perIndexTypes st') = lookup index (perIndexTypes st)).
Proof.
  revert st. induction entries as [|e entries IH]; intros st; simpl.
  - intros [= <-] _. split; [intros ? ? []|reflexivity].
  - unfold bindM. rewrite storeIndexMapping_eq.
    destruct (normalizeIndexMapping (snd e)) as [n| |] eqn:En; try discriminate.
    intros H N. inversion N as [|? ? Hn N']; subst.
    destruct (IH _ H N') as [I1 I2]. split.
    + intros index indexMapping [E|Hin]; [|now apply I1].
      subst e. simpl in *.
      exists n. split; [exact En|].
      rewrite (I2 _ Hn). simpl. apply lookup_obj_set_same.
    + intros index Hi. rewrite I2 by tauto. simpl.
      apply lookup_obj_set_other. intros ->. apply Hi. now left.
Qed.

Lemma uniqBy_from_of_NoDup {A} (iteratee : A -> string) (seen : list string) (l : list A) :
  NoDup (map iteratee l) -> (forall x, In x l -> ~ In (iteratee x) seen) ->
  uniqBy_from iteratee seen l = l.
Proof.
  revert seen. induction l as [|x l IH]; intros seen N D; simpl; [reflexivity|].
  inversion N as [|? ? Hx N']; subst.
  destruct (existsb (String.eqb (iteratee x)) seen) eqn:E.
  - apply existsb_eqb_In in E. exfalso. apply (D x); [now left|exact E].
  - f_equal. apply IH; [exact N'|].
    intros y Hy [E'|Hs].
    + apply Hx. rewrite E'. now apply in_map.
    + apply (D y); [now right|exact Hs].
Qed.

(** [_.uniqBy] changes nothing in a list without repeats. *)
Lemma uniqBy_of_NoDup {A} (iteratee : A -> string) (l : list A) :
  NoDup (map iteratee l) -> uniqBy iteratee l = l.
Proof. intros N. apply uniqBy_from_of_NoDup; [exact N|]. intros x _ []. Qed.

Lemma getFieldNamesFromProperties_NoDup (v : value) (l : list field) :
  getFieldNamesFromProperties v = Ret l -> NoDup (map fieldKey l).
Proof.
  rewrite getFieldNamesFromProperties_eq.
  destruct (Object_entries _) as [entries| |]; simpl; try discriminate.
  destruct (flatMapM _ entries) as [fl| |]; simpl; try discriminate.
  intros [= <-]. apply uniqBy_NoDup.
Qed.

Lemma getFields_known_index (st : Store) (index : string)
    (typeDict : list (string * list field)) (fuel : nat) :
  lookup index (perAliasIndices st) = None ->
  lookup index (perIndexTypes st) = Some typeDict ->
  getTypes (S fuel) st (VStr index) = Ret (uniqBy (fun t => t) (keys typeDict)) /\
  getFields (S fuel) st (VStr index) VUndef =
    Ret (uniqBy fieldKey (flat_map snd typeDict)).
Proof.
  intros Ha Hi. split.
  - rewrite getTypes_index by assumption. unfold index_types. now rewrite Hi.
  - cbn [getFields]. rewrite (expandAliases_index st index Ha). cbn [bind].
    rewrite Hi.
    rewrite (flatMapM_ext _ (fun e => Ret (snd e))); [|reflexivity].
    now rewrite flatMapM_Ret.
Qed.

(** X6.  After [loadMappings] has returned for a payload with distinct
    keys, [perIndexTypes] holds for every index of the payload the type
    map normalized from its entry.  Unless the index bears the name of an
    alias or a name that [Object.prototype] defines, [getTypes(index)]
    is the keys of that type map and [getFields(index)] its field lists,
    concatenated and deduplicated; for an entry [{ properties: p }] that
    is the normalizer's output for [p], as it is. *)
Theorem loadMappings_lookup (o : list (string * value)) (st : Store)
    (index : string) (indexMapping : value) :
  fst (loadMappings (VObj o) st) = Ret tt ->
  NoDup (keys o) ->
  In (index, indexMapping) o ->
  exists typeDict,
    normalizeIndexMapping indexMapping = Ret typeDict /\
    lookup index (perIndexTypes (snd (loadMappings (VObj o) st))) = Some typeDict /\
    (lookup index (perAliasIndices st) = None -> inherited index = false ->
     forall fuel,
       getTypes (S fuel) (snd (loadMappings (VObj o) st)) (VStr index) =
         Ret (uniqBy (fun t => t) (keys typeDict)) /\
       getFields (S fuel) (snd (loadMappings (VObj o) st)) (VStr index) VUndef =
         Ret (uniqBy fieldKey (flat_map snd typeDict)) /\
       (forall p, indexMapping = VObj [("properties", p)] ->
          getFields (S fuel) (snd (loadMappings (VObj o) st)) (VStr index) VUndef =
            getFieldNamesFromProperties p)).
Proof.
  intros R N Hin.
  pose proof (loadMappings_unfold (VObj o)) as U.
  assert (E : loadMappings (VObj o) st =
              forEach storeIndexMapping o (set_perIndexTypes [] st))
    by (rewrite U; reflexivity).
  rewrite E in *.
  destruct (forEach storeIndexMapping o (set_perIndexTypes [] st)) as [r st'] eqn:F.
  simpl in R. subst r.
  destruct (storeIndexMappings_lookup o _ st' F N) as [L _].
  destruct (L index indexMapping Hin) as [typeDict [En El]].
  exists typeDict. split; [exact En|]. split; [exact El|].
  intros Ha _ fuel. simpl snd.
  assert (Ha' : lookup index (perAliasIndices st') = None).
  { destruct (storeIndexMappings_frame o (set_perIndexTypes [] st)
                (set_perIndexTypes [] st) eq_refl) as [_ [_ [A _]]].
    rewrite F in A. simpl in A. now rewrite A. }
  destruct (getFields_known_index st' index typeDict fuel Ha' El) as [T G].
  split; [exact T|]. split; [exact G|].
  intros p ->. rewrite G. rewrite normalizeIndexMapping_unfold in En.
  cbn [get_prop lookup String.eqb Ascii.eqb Bool.eqb bind truthy andb Object_keys
       Object_entries foldM] in En.
  unfold storeTypeMapping in En. cbn [fst snd String.eqb Ascii.eqb Bool.eqb] in En.
  destruct (getFieldNamesFromProperties p) as [fields| |] eqn:Ep; try discriminate.
  cbn [bind obj_set] in En. injection En as <-. simpl. rewrite app_nil_r.
  f_equal. apply uniqBy_of_NoDup.
  now apply getFieldNamesFromProperties_NoDup with p.
Qed.

Lemma loadMappings_lookup_witness :
  getFields 1 (snd (loadMappings idx_mappings emptyStore)) (VStr "idx") VUndef =
    getFieldNamesFromProperties
      (VObj [("user", VObj [("properties",
                VObj [("name", VObj [("type", VStr "text")])])])]).
Proof.
  destruct (loadMappings_lookup
              [("idx", VObj [("properties",
                 VObj [("user", VObj [("properties",
                    VObj [("name", VObj [("type", VStr "text")])])])])])]
              emptyStore "idx"
              (VObj [("properties",
                 VObj [("user", VObj [("properties",
                    VObj [("name", VObj [("type", VStr "text")])])])])])
              eq_refl)
    as [typeDict [_ [_ H]]].
  - repeat constructor. intros [].
  - now left.
  - exact (proj2 (proj2 (H eq_refl eq_refl 0)) _ eq_refl).
Defined.

(** ** Type maps in the store *)

Lemma foldM_inv {A S} (P : S -> Prop) (f : S -> A -> outcome S) (xs : list A) :
  (forall s x s', P s -> f s x = Ret s' -> P s') ->
  forall s s', P s -> foldM f s xs = Ret s' -> P s'.
Proof.
  intros Hf. induction xs as [|x xs IH]; intros s s' Hs; simpl.
  - now intros [= <-].
  - destruct (f s x) as [s1| |] eqn:E; simpl; try discriminate.
    apply IH. now apply Hf with s x.
Qed.

Lemma storeTypeMapping_normal (typeDict typeDict' : list (string * list field))
    (e : string * value) :
  normal_type_map typeDict -> storeTypeMapping typeDict e = Ret typeDict' ->
  normal_type_map typeDict'.
Proof.
  intros H. unfold storeTypeMapping.
  destruct (String.eqb_spec (fst e) "properties") as [Ek|Nk].
  - destruct (getFieldNamesFromProperties (snd e)) as [fl| |] eqn:Ef; simpl;
      try discriminate.
    intros [= <-] t fields. destruct (String.eqb_spec t (fst e)) as [->|Nt].
    + rewrite lookup_obj_set_same. intros [= <-]. split.
      * now apply getFieldNamesFromProperties_NoDup with (snd e).
      * intros N. contradiction.
    + rewrite lookup_obj_set_other by assumption. apply H.
  - intros [= <-] t fields. destruct (String.eqb_spec t (fst e)) as [->|Nt].
    + rewrite lookup_obj_set_same. intros [= <-]. split; [constructor|reflexivity].
    + rewrite lookup_obj_set_other by assumption. apply H.
Qed.

Lemma normalizeIndexMapping_normal (indexMapping : value)
    (typeDict : list (string * list field)) :
  normalizeIndexMapping indexMapping = Ret typeDict -> normal_type_map typeDict.
Proof.
  rewrite normalizeIndexMapping_unfold.
  destruct (get_prop indexMapping "mappings") as [wrapped| |]; simpl; try discriminate.
  destruct (Object_keys indexMapping) as [ks| |]; simpl; try discriminate.
  destruct (Object_entries _) as [entries| |]; simpl; try discriminate.
  apply (foldM_inv normal_type_map storeTypeMapping entries).
  - intros s x s'. apply storeTypeMapping_normal.
  - intros t fields. discriminate.
Qed.

Lemma normal_store_set (st : Store) (index : string)
    (typeDict : list (string * list field)) :
  normal_store st -> normal_type_map typeDict ->
  normal_store (set_perIndexTypes (obj_set index typeDict (perIndexTypes st)) st).
Proof.
  intros H Ht i td. simpl. destruct (String.eqb_spec i index) as [->|N].
  - rewrite lookup_obj_set_same. now intros [= <-].
  - rewrite lookup_obj_set_other by assumption. apply H.
Qed.

Lemma loadMappings_normal (mappings : value) (st : Store) :
  normal_store (snd (loadMappings mappings st)).
Proof.
  rewrite loadMappings_unfold. apply bindM_inv.
  - intros i td. discriminate.
  - intros _ st1 H1. apply bindM_inv; [exact H1|]. intros entries st2 H2.
    apply forEach_inv; [|exact H2]. intros e st3 H3.
    rewrite storeIndexMapping_eq.
    destruct (normalizeIndexMapping (snd e)) as [n| |] eqn:E; simpl; try exact H3.
    apply normal_store_set; [exact H3|]. now apply normalizeIndexMapping_normal with (snd e).
Qed.

Lemma loadAliases_normal (aliases : value) (st : Store) :
  normal_store st -> normal_store (snd (loadAliases aliases st)).
Proof.
  intros H. unfold loadAliases. apply bindM_inv; [|intros _ st1 H1; exact H1].
  unfold loadAliases_entries. apply bindM_inv; [exact H|].
  intros _ st1 H1. apply bindM_inv; [exact H1|]. intros entries st2 H2.
  apply forEach_inv; [|exact H2]. intros e st3 H3. unfold loadIndexAliases.
  apply bindM_inv.
  - simpl. destruct (lookup (fst e) (perIndexTypes st3)); [exact H3|].
    apply normal_store_set; [exact H3|]. intros t fields. discriminate.
  - intros _ st4 H4. apply bindM_inv; [exact H4|]. intros a st5 H5.
    apply bindM_inv; [exact H5|]. intros ks st6 H6.
    apply forEach_inv; [|exact H6]. intros alias st7 H7.
    unfold recordAlias. destruct (alias =? fst e); [exact H7|].
    destruct (lookup alias (perAliasIndices st7)); [exact H7|].
    destruct (inherited alias); exact H7.
Qed.

Lemma loadTemplates_normal (templatesObject : value) (st : Store) :
  normal_store st -> normal_store (snd (loadTemplates templatesObject st)).
Proof.
  intros H. unfold loadTemplates. apply bindM_inv; [exact H|].
  intros ks st1 H1. exact H1.
Qed.

(** A type name that [Object.prototype] binds to a function of one or
    more parameters, and that is no key of the type map:
    [getFields('logs', 'constructor')] throws. *)
Lemma getFields_inherited_type_throws (st : Store) (index t : string)
    (typeDict : list (string * list field)) (n fuel : nat) :
  lookup index (perAliasIndices st) = None ->
  lookup index (perIndexTypes st) = Some typeDict ->
  lookup t typeDict = None ->
  lookup t Object_prototype = Some (S n) ->
  getFields (S fuel) st (VStr index) (VStr t) = Throw TypeError.
Proof.
  intros Ha Hi Ht Hp. cbn [getFields].
  rewrite (expandAliases_index st index Ha). cbn [bind].
  now rewrite Hi, Ht, Hp.
Qed.

(** X7.  The loaders keep the type maps of the store normal: every
    stored field list is free of repeated [name:type] strings, and a type
    other than [properties] has no fields.  [loadMappings] leaves such a
    store whatever was there before and however it ends; [loadAliases],
    [loadTemplates] and [clear] keep or leave one.  In such a store
    [getFields(index, type)] is empty for every other type name, where
    neither [index] nor [type] is a name that [Object.prototype]
    defines and [index] is not the name of an alias (for such a [type]
    the call can throw, lemma [getFields_inherited_type_throws]). *)
Theorem store_stays_normal (v : value) (st : Store) :
  normal_store (snd (loadMappings v st)) /\
  (normal_store st -> normal_store (snd (loadAliases v st))) /\
  (normal_store st -> normal_store (snd (loadTemplates v st))) /\
  normal_store (snd (clear st)) /\
  (normal_store st ->
   forall index t fuel,
     lookup index (perAliasIndices st) = None -> inherited index = false ->
     t <> "properties" -> inherited t = false ->
     getFields (S fuel) st (VStr index) (VStr t) = Ret []).
Proof.
  split; [apply loadMappings_normal|].
  split; [apply loadAliases_normal|].
  split; [apply loadTemplates_normal|].
  split; [intros i td; discriminate|].
  intros H index t fuel Ha _ Nt It.
  cbn [getFields]. rewrite (expandAliases_index st index Ha). cbn [bind].
  destruct (lookup index (perIndexTypes st)) as [typeDict|] eqn:Ei; [|reflexivity].
  destruct (lookup t typeDict) as [fields|] eqn:Et.
  - destruct (H index typeDict Ei t fields Et) as [_ E]. now rewrite (E Nt).
  - unfold inherited in It. apply orb_false_iff in It.
    now destruct (lookup t Object_prototype).
Qed.

Lemma store_stays_normal_witness :
  getFields 1 (snd (loadAliases two_indices (snd (loadMappings legacy_types emptyStore))))
    (VStr "logs") (VStr "doc") = Ret [].
Proof.
  refine (proj2 (proj2 (proj2 (proj2
            (store_stays_normal two_indices
               (snd (loadAliases two_indices
                       (snd (loadMappings legacy_types emptyStore))))))))
            _ "logs" "doc" 0 eq_refl eq_refl _ eq_refl).
  - apply loadAliases_normal, loadMappings_normal.
  - discriminate.
Defined.

(** ** A mapping that cannot be read *)

(** X8.  [loadMappings] is not atomic.  When the entry of some index
    makes the normalization throw (a [null] index mapping, say), the load
    stops there with that error: the indices before it are loaded, as by
    [loadMappings] of them alone, and neither that index nor the ones
    after it are. *)
Theorem loadMappings_stops_at_throw (pre post : list (string * value))
    (index : string) (bad : value) (x : error) (st : Store) :
  fst (loadMappings (VObj pre) st) = Ret tt ->
  normalizeIndexMapping bad = Throw x ->
  loadMappings (VObj (pre ++ (index, bad) :: post)) st =
    (Throw x, snd (loadMappings (VObj pre) st)).
Proof.
  intros R B. rewrite !loadMappings_unfold in *.
  unfold bindM, modify, lift in *. simpl in *.
  rewrite forEach_app. unfold bindM.
  destruct (forEach storeIndexMapping pre (set_perIndexTypes [] st)) as [r st'].
  simpl in R. subst r. simpl. unfold bindM.
  rewrite storeIndexMapping_eq. simpl. now rewrite B.
Qed.

Lemma loadMappings_stops_at_throw_witness :
  loadMappings (VObj [("a", VObj []); ("b", VNull); ("c", VObj [])]) populated =
    (Throw TypeError, mkStore [("a", [])] [("a1", ["idx"]); ("_all", ["idx"])] ["t1"]).
Proof.
  exact (loadMappings_stops_at_throw [("a", VObj [])] [("c", VObj [])] "b" VNull
           TypeError populated eq_refl eq_refl).
Defined.

(** ** The legacy wrapper *)

Lemma forEach_map {A B} (g : A -> B) (f : B -> M unit) (xs : list A) (st : Store) :
  forEach f (map g xs) st = forEach (fun x => f (g x)) xs st.
Proof.
  revert st. induction xs as [|x xs IH]; intros st; simpl; [reflexivity|].
  unfold bindM. destruct (f (g x) st) as [[[]|e|] st']; try reflexivity. apply IH.
Qed.

Lemma forEach_ext {A} (f g : A -> M unit) (xs : list A) (st : Store) :
  (forall x s, In x xs -> f x s = g x s) -> forEach f xs st = forEach g xs st.
Proof.
  revert st. induction xs as [|x xs IH]; intros st H; simpl; [reflexivity|].
  unfold bindM. rewrite (H x st (or_introl eq_refl)).
  destruct (g x st) as [[[]|e|] st']; try reflexivity.
  apply IH. intros y s Hy. apply H. now right.
Qed.

Lemma normalizeIndexMapping_wrapped (m : value) :
  truthy m = true -> is_wrapper m = false ->
  normalizeIndexMapping (VObj [("mappings", m)]) = normalizeIndexMapping m.
Proof.
  intros T W. rewrite !normalizeIndexMapping_unfold.
  cbn [get_prop lookup String.eqb Ascii.eqb Bool.eqb bind Object_keys Object_entries
       keys map List.length Nat.eqb].
  rewrite T. cbn [andb]. unfold is_wrapper in W.
  destruct (get_prop m "mappings") as [w| |] eqn:Ew;
    [|destruct m; simpl in *; try discriminate;
      destruct (_ =? "length") in Ew; discriminate..].
  cbn [bind].
  destruct (Object_keys m) as [ks| |] eqn:Ek;
    [|destruct m; discriminate..].
  cbn [bind]. now rewrite W.
Qed.

(** X9.  The 1.0.0 format is migrated: a payload in which every index
    mapping [m] comes wrapped as [{ mappings: m }] is loaded exactly as
    the payload of the unwrapped mappings, for truthy [m] that are not
    themselves such wrappers.  An object with a second key beside
    [mappings] is no wrapper: its keys are stored as type names without
    fields. *)
Theorem loadMappings_unwraps (o : list (string * value)) (st : Store) :
  ((forall e, In e o -> truthy (snd e) = true /\ is_wrapper (snd e) = false) ->
   loadMappings (VObj (wrap o)) st = loadMappings (VObj o) st) /\
  (forall m k s, truthy m = true -> k <> "mappings" -> k <> "properties" ->
     normalizeIndexMapping (VObj [("mappings", m); (k, s)]) =
       Ret [("mappings", []); (k, [])]).
Proof.
  split.
  - intros H. rewrite !loadMappings_unfold. unfold bindM, modify, lift. simpl.
    unfold wrap. rewrite forEach_map. apply forEach_ext.
    intros e s He. rewrite !storeIndexMapping_eq. simpl.
    destruct (H e He) as [T W]. now rewrite normalizeIndexMapping_wrapped.
  - intros m k s T Nm Np. rewrite normalizeIndexMapping_unfold.
    cbn [get_prop lookup String.eqb Ascii.eqb Bool.eqb bind Object_keys Object_entries
         keys map List.length Nat.eqb].
    rewrite T. cbn [andb Object_entries bind foldM]. unfold storeTypeMapping.
    cbn [fst snd String.eqb Ascii.eqb Bool.eqb bind obj_set foldM].
    destruct (String.eqb_spec k "properties"); [contradiction|]. cbn [bind obj_set].
    destruct (String.eqb_spec k "mappings"); [contradiction|]. reflexivity.
Qed.

Lemma loadMappings_unwraps_witness :
  loadMappings
    (VObj [("idx", VObj [("mappings", VObj [("properties",
       VObj [("user", VObj [("properties",
          VObj [("name", VObj [("type", VStr "text")])])])])])])])
    emptyStore =
  loadMappings idx_mappings emptyStore.
Proof.
  refine (proj1 (loadMappings_unwraps
            [("idx", VObj [("properties",
               VObj [("user", VObj [("properties",
                  VObj [("name", VObj [("type", VStr "text")])])])])])]
            emptyStore) _).
  intros e [<-|[]]. split; reflexivity.
Defined.

(** * More on the alias loader *)

Lemma lookup_app_Some {A} (k : string) (o o' : list (string * A)) (v : A) :
  lookup k o = Some v -> lookup k (o ++ o') = Some v.
Proof.
  induction o as [|[k' v'] o IH]; simpl; [discriminate|].
  destruct (k =? k'); auto.
Qed.

Lemma lookup_app_None {A} (k : string) (o o' : list (string * A)) :
  lookup k (o ++ o') = None -> lookup k o = None.
Proof.
  induction o as [|[k' v'] o IH]; simpl; [reflexivity|].
  destruct (k =? k'); auto.
Qed.

Lemma indices_appended_refl (st : Store) : indices_appended st st.
Proof.
  split; [|reflexivity]. exists []. simpl. rewrite app_nil_r. split; [reflexivity|].
  intros i [].
Qed.

Lemma indices_appended_aliases (st st' : Store) (x : list (string * list string)) :
  indices_appended st st' -> indices_appended st (set_perAliasIndices x st').
Proof. intros H. exact H. Qed.

Lemma indices_appended_ensure (st st' : Store) (index : string) :
  indices_appended st st' ->
  indices_appended st
    (match lookup index (perIndexTypes st') with
     | Some _ => st'
     | None => set_perIndexTypes (obj_set index [] (perIndexTypes st')) st'
     end).
Proof.
  intros [[added [E D]] T].
  destruct (lookup index (perIndexTypes st')) eqn:L; [split; eauto|].
  split; [|exact T]. exists (added ++ [index]). simpl. split.
  - rewrite (obj_set_new _ _ _ L), E, map_app, app_assoc. reflexivity.
  - intros i Hi. apply in_app_iff in Hi. destruct Hi as [Hi|[<-|[]]]; [auto|].
    rewrite E in L. now apply lookup_app_None in L.
Qed.

Lemma loadIndexAliases_appends (st : Store) (e : string * value) (st' : Store) :
  indices_appended st st' -> indices_appended st (snd (loadIndexAliases e st')).
Proof.
  intros H. unfold loadIndexAliases. apply bindM_inv.
  - apply indices_appended_ensure, H.
  - intros _ st1 H1. apply bindM_inv; [exact H1|]. intros a st2 H2.
    apply bindM_inv; [exact H2|]. intros ks st3 H3.
    apply forEach_inv; [|exact H3]. intros alias st4 H4.
    destruct (recordAlias_keeps (fst e) alias st4) as [P T].
    unfold indices_appended. rewrite P, T. exact H4.
Qed.

Lemma loadIndexAliases_all_append (entries : list (string * value)) (st : Store) :
  indices_appended st (snd (forEach loadIndexAliases entries st)).
Proof.
  apply forEach_inv; [|apply indices_appended_refl].
  intros e st'. apply loadIndexAliases_appends.
Qed.

Lemma loadAliases_appends (aliases : value) (st : Store) :
  indices_appended st (snd (loadAliases aliases st)).
Proof.
  unfold loadAliases. apply bindM_inv.
  - unfold loadAliases_entries.
    apply bindM_inv; [apply indices_appended_aliases, indices_appended_refl|].
    intros _ st1 H1. apply bindM_inv; [exact H1|]. intros entries st2 H2.
    apply forEach_inv; [|exact H2]. intros e st3. apply loadIndexAliases_appends.
  - intros _ st1 H1. exact H1.
Qed.

(** X10.  [loadAliases] never changes the type map of an index that
    the store has and never touches the templates, however it ends.
    Where the indices that the store does not have bear names that are
    neither canonical array indices nor defined by [Object.prototype],
    [perIndexTypes] is afterwards what it was, followed by those indices,
    each with an empty type map. *)
Theorem loadAliases_keeps_indices (aliases : value) (st : Store) :
  (forall index typeDict,
     lookup index (perIndexTypes st) = Some typeDict ->
     lookup index (perIndexTypes (snd (loadAliases aliases st))) = Some typeDict) /\
  templates (snd (loadAliases aliases st)) = templates st /\
  (new_indices_appendable aliases st ->
   indices_appended st (snd (loadAliases aliases st))).
Proof.
  pose proof (loadAliases_appends aliases st) as H.
  split; [|split; [exact (proj2 H)|intros _; exact H]].
  intros index typeDict L. destruct H as [[added [-> _]] _].
  now apply lookup_app_Some.
Qed.

Lemma loadAliases_keeps_indices_witness :
  lookup "idx" (perIndexTypes (snd (loadAliases two_indices populated))) =
    Some [("properties", [mkField (VStr "f") (VStr "text")])] /\
  indices_appended populated (snd (loadAliases two_indices populated)).
Proof.
  split.
  - exact (proj1 (loadAliases_keeps_indices two_indices populated) "idx" _ eq_refl).
  - refine (proj2 (proj2 (loadAliases_keeps_indices two_indices populated)) _).
    intros entries e [= <-] [<-|[<-|[]]] _; reflexivity.
Defined.

(** ** Where aliases point *)

Lemma keys_lookup_Some {A} (k : string) (o : list (string * A)) :
  lookup k o <> None -> In k (keys o).
Proof.
  intros H. destruct (in_dec string_dec k (keys o)) as [I|N]; [exact I|].
  apply lookup_None_keys in N. contradiction.
Qed.

Lemma recordAlias_points (index alias : string) (st : Store) :
  aliases_point st /\ In index (keys (perIndexTypes st)) ->
  aliases_point (snd (recordAlias index alias st)) /\
  In index (keys (perIndexTypes (snd (recordAlias index alias st)))).
Proof.
  intros [[K E] I]. rewrite recordAlias_run.
  destruct (String.eqb_spec alias index) as [_|N]; [now repeat split|].
  destruct (match lookup alias (perAliasIndices st) with
            | Some _ => false | None => inherited alias end); [now repeat split|].
  cbn [snd]. split; [split|exact I].
  - intros a l i. cbn [perAliasIndices perIndexTypes set_perAliasIndices].
    destruct (String.eqb_spec a alias) as [->|Na].
    + rewrite lookup_obj_set_same. intros [= <-]. rewrite in_app_iff.
      intros [Hi|[<-|[]]]; [|exact I].
      destruct (lookup alias (perAliasIndices st)) as [l0|] eqn:L; [|destruct Hi].
      exact (K alias l0 i L Hi).
    + rewrite lookup_obj_set_other by assumption. apply K.
  - intros a l. cbn [perAliasIndices set_perAliasIndices].
    destruct (String.eqb_spec a alias) as [->|Na].
    + rewrite lookup_obj_set_same. intros [= <-].
      now destruct (match lookup alias (perAliasIndices st) with
                    | Some l => l | None => [] end).
    + rewrite lookup_obj_set_other by assumption. apply E.
Qed.

Lemma loadIndexAliases_points (e : string * value) (st : Store) :
  aliases_point st -> aliases_point (snd (loadIndexAliases e st)).
Proof.
  intros [K E].
  apply (proj1 (A := aliases_point (snd (loadIndexAliases e st)))
               (B := In (fst e) (keys (perIndexTypes (snd (loadIndexAliases e st)))))).
  unfold loadIndexAliases.
  apply (bindM_inv (fun x => aliases_point x /\ In (fst e) (keys (perIndexTypes x)))).
  - unfold modify. cbn [snd].
    destruct (lookup (fst e) (perIndexTypes st)) eqn:L.
    + split; [split; assumption|]. apply keys_lookup_Some. now rewrite L.
    + split; [split|].
      * intros a l i Ha Hi. simpl. apply keys_obj_set_In. right. exact (K a l i Ha Hi).
      * exact E.
      * simpl. apply keys_obj_set_In. now left.
  - intros _ s0 P0. apply bindM_inv; [exact P0|]. intros a s1 P1.
    apply bindM_inv; [exact P1|]. intros ks s2 P2.
    apply forEach_inv; [|exact P2]. intros alias s3. apply recordAlias_points.
Qed.

Lemma loadAliases_entries_points (aliases : value) (st : Store) :
  aliases_point (snd (loadAliases_entries aliases st)).
Proof.
  unfold loadAliases_entries. apply bindM_inv.
  - split; [intros a l i|intros a l]; discriminate.
  - intros _ st1 H1. apply bindM_inv; [exact H1|]. intros entries st2 H2.
    apply forEach_inv; [|exact H2]. intros e st3. apply loadIndexAliases_points.
Qed.

(** X11.  After [loadAliases], however it ends, every name in an alias
    list is a key of [perIndexTypes], the reserved [_all] included; and
    every alias other than [_all] has at least one index. *)
Theorem loadAliases_points (aliases : value) (st : Store) :
  targets_known (snd (loadAliases aliases st)) /\
  (forall a l, a <> "_all" ->
     lookup a (perAliasIndices (snd (loadAliases aliases st))) = Some l -> l <> []).
Proof.
  destruct (loadAliases_entries_points aliases st) as [K E].
  unfold loadAliases, bindM.
  destruct (loadAliases_entries aliases st) as [[[]|x|] st1]; simpl in *; auto.
  - split.
    + intros a l i. simpl. destruct (String.eqb_spec a "_all") as [->|N].
      * rewrite lookup_obj_set_same. intros [= <-]. unfold getIndices. simpl.
        now rewrite app_nil_r.
      * rewrite lookup_obj_set_other by assumption. apply K.
    + intros a l N. rewrite lookup_obj_set_other by assumption. apply E.
  - split; [exact K|]. intros a l _. apply E.
  - split; [exact K|]. intros a l _. apply E.
Qed.

Lemma loadAliases_points_witness :
  lookup "a1" (perAliasIndices (snd (loadAliases two_indices emptyStore))) =
    Some ["idx1"] /\
  In "idx1" (keys (perIndexTypes (snd (loadAliases two_indices emptyStore)))) /\
  ["idx1"] <> [].
Proof.
  split; [reflexivity|]. split.
  - exact (proj1 (loadAliases_points two_indices emptyStore) "a1" ["idx1"] "idx1"
             eq_refl (or_introl eq_refl)).
  - refine (proj2 (loadAliases_points two_indices emptyStore) "a1" ["idx1"] _ eq_refl).
    discriminate.
Defined.

(** ** Loading the same aliases again *)

Lemma recordAliases_rerun (index : string) (ks : list string) (s1 s2 : Store) :
  perAliasIndices s1 = perAliasIndices s2 ->
  forEach (recordAlias index) ks s2 =
    (fst (forEach (recordAlias index) ks s1),
     mkStore (perIndexTypes s2)
             (perAliasIndices (snd (forEach (recordAlias index) ks s1)))
             (templates s2)).
Proof.
  revert s1 s2. induction ks as [|alias ks IH]; intros s1 s2 H; simpl.
  - rewrite H. now destruct s2.
  - unfold bindM. rewrite !recordAlias_run, H.
    destruct (alias =? index); [now apply IH|].
    destruct (match lookup alias (perAliasIndices s2) with
              | Some _ => false | None => inherited alias end).
    + simpl. rewrite H. now destruct s2.
    + cbn [fst snd].
      match goal with
      | |- forEach _ _ ?b = (fst (forEach _ _ ?a), _) =>
          rewrite (IH a b eq_refl)
      end.
      reflexivity.
Qed.

Lemma Store_eta (st : Store) :
  mkStore (perIndexTypes st) (perAliasIndices st) (templates st) = st.
Proof. now destruct st. Qed.

Lemma indices_appended_keys (st st' : Store) (i : string) :
  indices_appended st st' ->
  In i (keys (perIndexTypes st)) -> In i (keys (perIndexTypes st')).
Proof.
  intros [[added [-> _]] _] H. unfold keys in *. rewrite map_app, in_app_iff. now left.
Qed.

Lemma loadIndexAliases_has_index (e : string * value) (st : Store) :
  In (fst e) (keys (perIndexTypes (snd (loadIndexAliases e st)))).
Proof.
  unfold loadIndexAliases.
  apply (bindM_inv (fun x => In (fst e) (keys (perIndexTypes x)))).
  - unfold modify. cbn [snd]. destruct (lookup (fst e) (perIndexTypes st)) eqn:L.
    + apply keys_lookup_Some. now rewrite L.
    + simpl. apply keys_obj_set_In. now left.
  - intros _ s0 P0. apply bindM_inv; [exact P0|]. intros a s1 P1.
    apply bindM_inv; [exact P1|]. intros ks s2 P2.
    apply forEach_inv; [|exact P2]. intros alias s3 P3.
    now rewrite (proj1 (recordAlias_keeps (fst e) alias s3)).
Qed.

Lemma loadIndexAliases_rerun (e : string * value) (s1 s2 : Store) :
  perAliasIndices s1 = perAliasIndices s2 ->
  In (fst e) (keys (perIndexTypes s2)) ->
  loadIndexAliases e s2 =
    (fst (loadIndexAliases e s1),
     mkStore (perIndexTypes s2) (perAliasIndices (snd (loadIndexAliases e s1)))
             (templates s2)).
Proof.
  intros H I. unfold loadIndexAliases, bindM, modify, lift.
  assert (L2 : lookup (fst e) (perIndexTypes s2) <> None).
  { intros N. apply lookup_None_keys in N. contradiction. }
  destruct (lookup (fst e) (perIndexTypes s2)) as [td|]; [|contradiction].
  set (s1e := match lookup (fst e) (perIndexTypes s1) with
              | Some _ => s1
              | None => set_perIndexTypes (obj_set (fst e) [] (perIndexTypes s1)) s1
              end).
  assert (A : perAliasIndices s1e = perAliasIndices s2).
  { unfold s1e. now destruct (lookup (fst e) (perIndexTypes s1)). }
  destruct (get_prop (snd e) "aliases") as [a| |]; simpl;
    [|rewrite A, Store_eta; reflexivity..].
  destruct (Object_keys (if truthy a then a else VObj [])) as [ks| |]; simpl;
    [|rewrite A, Store_eta; reflexivity..].
  now rewrite (recordAliases_rerun (fst e) ks s1e s2 A).
Qed.

Lemma loadIndexAliases_all_rerun (entries : list (string * value)) (s1 s2 : Store) :
  perAliasIndices s1 = perAliasIndices s2 ->
  (forall i, In i (keys (perIndexTypes (snd (forEach loadIndexAliases entries s1)))) ->
             In i (keys (perIndexTypes s2))) ->
  forEach loadIndexAliases entries s2 =
    (fst (forEach loadIndexAliases entries s1),
     mkStore (perIndexTypes s2)
             (perAliasIndices (snd (forEach loadIndexAliases entries s1)))
             (templates s2)).
Proof.
  revert s1 s2. induction entries as [|e entries IH]; intros s1 s2 H K; simpl.
  - now rewrite H, Store_eta.
  - simpl in K. unfold bindM in *.
    assert (I : In (fst e) (keys (perIndexTypes s2))).
    { apply K. pose proof (loadIndexAliases_has_index e s1) as Hi.
      destruct (loadIndexAliases e s1) as [[[]|x|] s1'] eqn:E1; simpl in *; auto.
      apply indices_appended_keys with s1'; [|exact Hi].
      apply loadIndexAliases_all_append. }
    rewrite (loadIndexAliases_rerun e s1 s2 H I).
    destruct (loadIndexAliases e s1) as [[[]|x|] s1'] eqn:E1; simpl in *;
      try reflexivity.
    rewrite (IH s1' (mkStore (perIndexTypes s2) (perAliasIndices s1') (templates s2)));
      [reflexivity|reflexivity|exact K].
Qed.

(** X12.  [loadAliases] is idempotent: loading the same aliases a second
    time ends as the first time did, throwing included, and leaves the
    store that the first load left. *)
Theorem loadAliases_twice (aliases : value) (st : Store) :
  loadAliases aliases (snd (loadAliases aliases st)) = loadAliases aliases st.
Proof.
  unfold loadAliases at 1 3. unfold loadAliases_entries, bindM, modify, lift.
  cbn [fst snd].
  destruct (Object_entries aliases) as [entries| |] eqn:Ee; cbn [fst snd].
  - pose proof (loadIndexAliases_all_append entries (set_perAliasIndices [] st))
      as [_ T].
    destruct (forEach loadIndexAliases entries (set_perAliasIndices [] st))
      as [r t1] eqn:E1.
    assert (R : forEach loadIndexAliases entries
                  (set_perAliasIndices [] (snd (loadAliases aliases st))) =
                (r, mkStore (perIndexTypes (snd (loadAliases aliases st)))
                            (perAliasIndices t1)
                            (templates (snd (loadAliases aliases st))))).
    { rewrite (loadIndexAliases_all_rerun entries (set_perAliasIndices [] st)
                 (set_perAliasIndices [] (snd (loadAliases aliases st))) eq_refl).
      - now rewrite E1.
      - rewrite E1. cbn [snd set_perAliasIndices perIndexTypes].
        intros i Hi. unfold loadAliases, loadAliases_entries, bindM, modify, lift.
        cbn [fst snd]. rewrite Ee. cbn [fst snd]. rewrite E1.
        destruct r as [[]|x|]; exact Hi. }
    assert (S : snd (loadAliases aliases st) =
                match r with
                | Ret _ => set_perAliasIndices
                             (obj_set "_all" (getIndices t1 (VBool false))
                                (perAliasIndices t1)) t1
                | _ => t1
                end).
    { unfold loadAliases, loadAliases_entries, bindM, modify, lift.
      cbn [fst snd]. rewrite Ee. cbn [fst snd]. rewrite E1.
      now destruct r as [[]|x|]. }
    rewrite R. rewrite S. simpl in T.
    destruct r as [[]|x|]; cbn [perIndexTypes templates set_perAliasIndices];
      rewrite Store_eta; reflexivity.
  - unfold loadAliases, loadAliases_entries, bindM, modify, lift.
    cbn [fst snd]. rewrite Ee. reflexivity.
  - unfold loadAliases, loadAliases_entries, bindM, modify, lift.
    cbn [fst snd]. rewrite Ee. reflexivity.
Qed.

(** * More on the lookups *)

Lemma existsb_none {A} (f : A -> bool) (l : list A) :
  (forall x, In x l -> f x = false) -> existsb f l = false.
Proof.
  induction l as [|x l IH]; intros H; simpl; [reflexivity|].
  rewrite (H x (or_introl eq_refl)), IH; [reflexivity|].
  intros y Hy. apply H. now right.
Qed.

Lemma flat_map_nil {A B} (l : list A) : flat_map (fun _ : A => @nil B) l = [].
Proof. induction l as [|x l IH]; simpl; auto. Qed.

Lemma expansion_of_names (st : Store) (names : list string) :
  (forall x, In x names -> lookup x (perAliasIndices st) = None) ->
  forall v, In v (expansion st (map VStr names)) -> exists x, v = VStr x /\ In x names.
Proof.
  intros H v Hv. apply expansion_In in Hv.
  rewrite flat_map_singletons in Hv.
  - apply in_map_iff in Hv. destruct Hv as [x [<- Hx]]. eauto.
  - intros y Hy. apply in_map_iff in Hy. destruct Hy as [x [<- Hx]].
    unfold resolve. simpl. now rewrite (H x Hx).
Qed.

Lemma unknown_not_included (st : Store) (names : list string) (r : list value)
    (index : string) :
  (forall v, In v r -> exists x, v = VStr x /\ In x names) ->
  (forall x, In x names -> lookup x (perIndexTypes st) = None) ->
  In index (keys (perIndexTypes st)) ->
  includes (VArr r) index = Ret false.
Proof.
  intros Hr Hn Hi. simpl. f_equal. apply existsb_none. intros v Hv.
  destruct (Hr v Hv) as [x [-> Hx]]. simpl.
  apply String.eqb_neq. intros ->.
  specialize (Hn index Hx). apply lookup_None_keys in Hn. contradiction.
Qed.

(** X13.  Names that are neither indices nor aliases nor names that
    [Object.prototype] defines give nothing: for such a name, and for a
    non-empty list of such names, [getFields] and [getTypes] return the
    empty list, whatever [types] is. *)
Theorem unknown_names_give_nothing (st : Store) (names : list string)
    (types : value) (fuel : nat) :
  names <> [] ->
  (forall x, In x names ->
     (lookup x (perAliasIndices st) = None /\ lookup x (perIndexTypes st) = None) /\
     inherited x = false) ->
  getFields (S (S fuel)) st (VArr (map VStr names)) types = Ret [] /\
  getTypes (S (S fuel)) st (VArr (map VStr names)) = Ret [] /\
  (forall x, In x names ->
     getFields (S fuel) st (VStr x) types = Ret [] /\
     getTypes (S fuel) st (VStr x) = Ret []).
Proof.
  intros Hne H'.
  assert (H : forall x, In x names ->
            lookup x (perAliasIndices st) = None /\ lookup x (perIndexTypes st) = None)
    by (intros x Hx; exact (proj1 (H' x Hx))).
  clear H'.
  assert (Single : forall x n, In x names ->
            getFields (S n) st (VStr x) types = Ret [] /\
            getTypes (S n) st (VStr x) = Ret []).
  { intros x n Hx. destruct (H x Hx) as [Ha Hi]. split.
    - cbn [getFields]. rewrite (expandAliases_index st x Ha). cbn [bind].
      now rewrite Hi.
    - rewrite getTypes_index by assumption. unfold index_types. now rewrite Hi. }
  assert (Hr := expansion_of_names st names (fun x Hx => proj1 (H x Hx))).
  assert (Hk : expansion st (map VStr names) <> []).
  { destruct names as [|x names]; [contradiction|].
    intros E. assert (I : In (VStr x) (expansion st (map VStr (x :: names)))).
    { apply expansion_keeps; [|discriminate]. simpl. apply in_or_app. left.
      unfold resolve. simpl. rewrite (proj1 (H x (or_introl eq_refl))). now left. }
    rewrite E in I. destruct I. }
  assert (E : expandAliases st (VArr (map VStr names)) =
              Ret (if (1 <? List.length (expansion st (map VStr names)))%nat
                   then VArr (expansion st (map VStr names))
                   else nth 0 (expansion st (map VStr names)) VUndef))
    by reflexivity.
  destruct (expansion st (map VStr names)) as [|v1 [|v2 r]] eqn:Er;
    [contradiction| |].
  - destruct (Hr v1 (or_introl eq_refl)) as [x [-> Hx]].
    destruct (H x Hx) as [Ha Hi].
    split; [|split; [|intros y Hy; apply Single, Hy]].
    + cbn [getFields]. rewrite E. cbn [List.length Nat.ltb Nat.leb nth bind].
      now rewrite Hi.
    + cbn [getTypes]. rewrite E. cbn [List.length Nat.ltb Nat.leb nth bind].
      now rewrite Hi.
  - split; [|split; [|intros y Hy; apply Single, Hy]].
    + cbn [getFields]. rewrite E. cbn [List.length Nat.ltb Nat.leb bind].
      rewrite (flatMapM_ext _ (fun _ => Ret [])).
      * now rewrite flatMapM_Ret, flat_map_nil.
      * intros index Hi. unfold selects. cbn [truthy negb get_prop String.eqb
          Ascii.eqb Bool.eqb bind strict_eq List.length].
        rewrite (unknown_not_included st names (v1 :: v2 :: r) index Hr
                   (fun x Hx => proj2 (H x Hx)) Hi).
        reflexivity.
    + cbn [getTypes]. rewrite E. cbn [List.length Nat.ltb Nat.leb bind].
      rewrite (flatMapM_ext _ (fun _ => Ret [])).
      * now rewrite flatMapM_Ret, flat_map_nil.
      * intros index Hi. unfold selects_index. cbn [truthy negb].
        rewrite (unknown_not_included st names (v1 :: v2 :: r) index Hr
                   (fun x Hx => proj2 (H x Hx)) Hi).
        reflexivity.
Qed.

Lemma unknown_names_give_nothing_witness :
  getFields 2 idx_store (VArr [VStr "nope"; VStr "none"]) VUndef = Ret [] /\
  getTypes 1 idx_store (VStr "nope") = Ret [].
Proof.
  assert (H : forall x, In x ["nope"; "none"] ->
              (lookup x (perAliasIndices idx_store) = None /\
               lookup x (perIndexTypes idx_store) = None) /\
              inherited x = false).
  { intros x [<-|[<-|[]]]; repeat split; reflexivity. }
  destruct (unknown_names_give_nothing idx_store ["nope"; "none"] VUndef 0) as [F [_ S]];
    [discriminate|exact H|].
  split; [exact F|]. exact (proj2 (S "nope" (or_introl eq_refl))).
Defined.

(** X14.  What [getFields] returns never holds two descriptors with
    the same [name:type] string, and what [getTypes] returns never holds
    a type name twice. *)
Theorem lookups_return_no_duplicates (st : Store) (indices types : value) (fuel : nat) :
  (forall l, getFields fuel st indices types = Ret l -> NoDup (map fieldKey l)) /\
  (forall l, getTypes fuel st indices = Ret l -> NoDup l).
Proof.
  split; intros l; (destruct fuel as [|fuel]; [discriminate|]).
  - cbn [getFields].
    destruct (expandAliases st indices) as [i| |]; cbn [bind]; try discriminate.
    assert (M : forall o : outcome (list field),
              (ret <- o ;; Ret (uniqBy fieldKey ret)) = Ret l ->
              NoDup (map fieldKey l)).
    { intros [ret| |]; simpl; try discriminate. intros [= <-]. apply uniqBy_NoDup. }
    destruct i; try apply M.
    destruct (lookup s (perIndexTypes st)) as [typeDict|];
      [|intros [= <-]; constructor].
    destruct types as [| |b|n|t|ts|o]; try apply M.
    destruct (lookup t typeDict) as [f|]; [intros [= <-]; apply uniqBy_NoDup|].
    destruct (lookup t Object_prototype) as [[|n]|]; try discriminate;
      intros [= <-]; constructor.
  - cbn [getTypes].
    destruct (expandAliases st indices) as [i| |]; cbn [bind]; try discriminate.
    assert (U : forall ts : list string, NoDup (uniqBy (fun t => t) ts)).
    { intros ts. rewrite <- (map_id (uniqBy (fun t => t) ts)). apply uniqBy_NoDup. }
    assert (M : forall o : outcome (list string),
              (ret <- o ;; Ret (uniqBy (fun t => t) ret)) = Ret l -> NoDup l).
    { intros [ret| |]; simpl; try discriminate. intros [= <-]. apply U. }
    destruct i; try apply M.
    destruct (lookup s (perIndexTypes st)) as [typeDict|];
      intros [= <-]; [apply U|constructor].
Qed.

Lemma lookups_return_no_duplicates_witness :
  NoDup (map fieldKey [mkField (VStr "f") (VStr "text"); mkField (VStr "g") (VStr "keyword")]).
Proof.
  exact (proj1 (lookups_return_no_duplicates idx_store (VArr []) VUndef 2) _ eq_refl).
Defined.

(** * The expansion as a canonical form *)

Section NameOrder.












End NameOrder.






(** X16.  An alias expands to what the list of its indices expands to,
    where none of them bears the name of an alias or a name that
    [Object.prototype] defines. *)
Theorem expandAliases_alias (st : Store) (a : string) (l : list string) :
  a <> "" ->
  lookup a (perAliasIndices st) = Some l ->
  (forall i, In i l -> lookup i (perAliasIndices st) = None /\ inherited i = false) ->
  expandAliases st (VStr a) = expandAliases st (VArr (map VStr l)).
Proof.
  intros Na La Hl'.
  assert (Hl : forall i, In i l -> lookup i (perAliasIndices st) = None)
    by (intros i Hi; exact (proj1 (Hl' i Hi))).
  clear Hl'.
  assert (E : expansion st [VStr a] = expansion st (map VStr l)).
  { unfold expansion. f_equal. f_equal. simpl. unfold resolve at 1. simpl.
    rewrite La, app_nil_r. symmetry. apply flat_map_singletons.
    intros y Hy. apply in_map_iff in Hy. destruct Hy as [i [<- Hi]].
    unfold resolve. simpl. now rewrite (Hl i Hi). }
  unfold expandAliases. simpl truthy.
  destruct (String.eqb_spec a ""); [contradiction|]. simpl negb. cbv iota.
  now rewrite E.
Qed.

Lemma expandAliases_alias_witness :
  expandAliases two_index_store (VStr "_all") =
  expandAliases two_index_store (VArr [VStr "idx1"; VStr "idx2"]).
Proof.
  refine (expandAliases_alias two_index_store "_all" ["idx1"; "idx2"] _ eq_refl _).
  - discriminate.
  - intros i [<-|[<-|[]]]; split; reflexivity.
Defined.

(** * The order in which the fetches settle *)

Section IgnoresTemplates.

Lemma ignores_lift {A} (o : outcome A) : ignores_templates (lift o).
Proof. intros t st. reflexivity. Qed.

Lemma ignores_retM {A} (a : A) : ignores_templates (retM a).
Proof. intros t st. reflexivity. Qed.

Lemma ignores_bindM {A B} (m : M A) (k : A -> M B) :
  ignores_templates m -> (forall a, ignores_templates (k a)) ->
  ignores_templates (bindM m k).
Proof.
  intros Hm Hk t st. unfold bindM. rewrite Hm.
  destruct (m st) as [[a|e|] st']; simpl; try reflexivity. apply Hk.
Qed.

Lemma ignores_forEach {A} (f : A -> M unit) (xs : list A) :
  (forall x, ignores_templates (f x)) -> ignores_templates (forEach f xs).
Proof.
  intros Hf. induction xs as [|x xs IH]; simpl.
  - apply ignores_retM.
  - apply ignores_bindM; [apply Hf|intros _; exact IH].
Qed.

Lemma ignores_set_perIndexTypes (g : Store -> list (string * list (string * list field))) :
  (forall t st, g (set_templates t st) = g st) ->
  ignores_templates (modify (fun st => set_perIndexTypes (g st) st)).
Proof. intros H t st. unfold modify. simpl. now rewrite H. Qed.

Lemma ignores_set_perAliasIndices (g : Store -> list (string * list string)) :
  (forall t st, g (set_templates t st) = g st) ->
  ignores_templates (modify (fun st => set_perAliasIndices (g st) st)).
Proof. intros H t st. unfold modify. simpl. now rewrite H. Qed.

Lemma loadMappings_ignores_templates (mappings : value) :
  ignores_templates (loadMappings mappings).
Proof.
  rewrite loadMappings_unfold.
  apply ignores_bindM; [now apply (ignores_set_perIndexTypes (fun _ => []))|].
  intros _. apply ignores_bindM; [apply ignores_lift|]. intros entries.
  apply ignores_forEach. intros e. unfold storeIndexMapping.
  apply ignores_bindM; [apply ignores_lift|]. intros n.
  now apply (ignores_set_perIndexTypes (fun st => obj_set (fst e) n (perIndexTypes st))).
Qed.

Lemma loadAliases_ignores_templates (aliases : value) :
  ignores_templates (loadAliases aliases).
Proof.
  unfold loadAliases. apply ignores_bindM.
  - unfold loadAliases_entries.
    apply ignores_bindM; [now apply (ignores_set_perAliasIndices (fun _ => []))|].
    intros _. apply ignores_bindM; [apply ignores_lift|]. intros entries.
    apply ignores_forEach. intros e. unfold loadIndexAliases.
    apply ignores_bindM.
    + intros t st. unfold modify. simpl.
      now destruct (lookup (fst e) (perIndexTypes st)).
    + intros _. apply ignores_bindM; [apply ignores_lift|]. intros a.
      apply ignores_bindM; [apply ignores_lift|]. intros ks.
      apply ignores_forEach. intros alias t st. rewrite !recordAlias_run.
      cbn [perAliasIndices set_templates].
      destruct (alias =? fst e); [reflexivity|].
      now destruct (match lookup alias (perAliasIndices st) with
                    | Some _ => false | None => inherited alias end).
  - intros _.
    now apply (ignores_set_perAliasIndices
                 (fun st => obj_set "_all" (getIndices st (VBool false))
                              (perAliasIndices st))).
Qed.

Variable send : string -> string -> settled.

Lemma retrieve_ignores_templates (f : fetch) (settingsToRetrieve : value) :
  f <> Templates -> ignores_templates (retrieve send f settingsToRetrieve).
Proof.
  intros N. destruct f; [| |contradiction]; simpl;
    unfold retrieveMappings, retrieveAliases;
    (apply ignores_bindM; [apply ignores_lift|]; intros p);
    (apply ignores_bindM; [apply ignores_lift|]; intros response);
    (apply ignores_bindM; [apply ignores_lift|]; intros body);
    (destruct (truthy body); [|apply ignores_retM]).
  - apply ignores_bindM; [apply ignores_lift|]. intros ks.
    apply loadMappings_ignores_templates.
  - apply loadAliases_ignores_templates.
Qed.

Lemma retrieveTemplates_writes_templates (settingsToRetrieve : value) :
  (forall st, settle send Templates settingsToRetrieve st = st) \/
  (exists ks, forall st,
     settle send Templates settingsToRetrieve st = set_templates ks st).
Proof.
  unfold settle. simpl. unfold retrieveTemplates, bindM, lift.
  destruct (retrieveSettings send "templates" settingsToRetrieve) as [p| |];
    [|left; reflexivity..].
  destruct (await p) as [response| |]; [|left; reflexivity..].
  destruct (get_prop response "body") as [body| |]; [|left; reflexivity..].
  destruct (truthy body); [|left; reflexivity].
  unfold loadTemplates, bindM, lift, modify.
  destruct (Object_keys _) as [ks| |]; [|left; reflexivity..].
  right. exists ks. reflexivity.
Qed.

Lemma settle_Templates_commutes (f : fetch) (settingsToRetrieve : value) (st : Store) :
  settle send Templates settingsToRetrieve (settle send f settingsToRetrieve st) =
  settle send f settingsToRetrieve (settle send Templates settingsToRetrieve st).
Proof.
  destruct (fetch_eqb f Templates) eqn:E; [now destruct f|].
  assert (N : f <> Templates) by (intros ->; discriminate).
  destruct (retrieveTemplates_writes_templates settingsToRetrieve) as [H|[ks H]].
  - now rewrite !H.
  - rewrite !H. unfold settle.
    now rewrite (retrieve_ignores_templates f settingsToRetrieve N ks st).
Qed.

End IgnoresTemplates.

(** X17.  The templates fetch is independent of the other two: the
    store after a poll cycle is the same whether the templates fetch
    settles first, between the other two or last.  The other two are not
    independent of each other: with the answers of [answers], the store
    differs with the order in which the mappings and the aliases fetches
    settle. *)
Theorem templates_settle_in_any_order (send : string -> string -> settled)
    (f g : fetch) (settingsToRetrieve : value) (st : Store) :
  poll_cycle send [Templates; f; g] settingsToRetrieve st =
    poll_cycle send [f; Templates; g] settingsToRetrieve st /\
  poll_cycle send [f; Templates; g] settingsToRetrieve st =
    poll_cycle send [f; g; Templates] settingsToRetrieve st /\
  poll_cycle answers [Mappings; Aliases] all_true emptyStore <>
    poll_cycle answers [Aliases; Mappings] all_true emptyStore.
Proof.
  split; [|split].
  - simpl. now rewrite settle_Templates_commutes.
  - simpl. symmetry. apply settle_Templates_commutes.
  - vm_compute. discriminate.
Qed.

(** ** [_all] after a later load of mappings *)





(** ** Keys the normalizer does not read *)

Lemma lookup_other_key {A} (k k' : string) (v : A) (o1 o2 : list (string * A)) :
  k' <> k -> lookup k' (o1 ++ (k, v) :: o2) = lookup k' (o1 ++ o2).
Proof.
  intros N. induction o1 as [|[k0 v0] o1 IH]; simpl.
  - destruct (k' =? k) eqn:E; [|reflexivity].
    apply String.eqb_eq in E. contradiction.
  - now rewrite IH.
Qed.

Lemma get_prop_other_key (k k' : string) (v : value) (o1 o2 : list (string * value)) :
  k' <> k ->
  get_prop (VObj (o1 ++ (k, v) :: o2)) k' = get_prop (VObj (o1 ++ o2)) k'.
Proof. intros N. simpl. now rewrite lookup_other_key. Qed.

(** X19.  The normalizer reads six keys of the mapping object of a
    field and no other: an entry of that object under any other key (an
    analyzer, a format, ...), at whatever place among its entries, does
    not change the descriptors of the field.  (The entries of a
    [properties] or [fields] object are fields, not settings.) *)
Theorem other_settings_ignored (fieldName k : string) (v : value)
    (o1 o2 : list (string * value)) :
  ~ In k read_by_normalizer ->
  getFieldNamesFromFieldMapping fieldName (VObj (o1 ++ (k, v) :: o2)) =
  getFieldNamesFromFieldMapping fieldName (VObj (o1 ++ o2)).
Proof.
  intros N. rewrite !getFieldNamesFromFieldMapping_eq.
  rewrite !(get_prop_other_key k _ v o1 o2); [reflexivity|..];
    intros E; subst k; apply N; simpl; auto 10.
Qed.

Lemma other_settings_ignored_witness :
  getFieldNamesFromFieldMapping "title"
    (VObj [("type", VStr "text"); ("analyzer", VStr "english");
           ("fields", VObj [("raw", VObj [("type", VStr "keyword")])])]) =
  getFieldNamesFromFieldMapping "title"
    (VObj [("type", VStr "text");
           ("fields", VObj [("raw", VObj [("type", VStr "keyword")])])]).
Proof.
  refine (other_settings_ignored "title" "analyzer" (VStr "english")
            [("type", VStr "text")]
            [("fields", VObj [("raw", VObj [("type", VStr "keyword")])])] _).
  simpl. intros H. repeat (destruct H as [H|H]; [discriminate|]). exact H.
Defined.

(** ** Which timer a call can cancel *)

Lemma remove_nat_In (t x : nat) (l : list nat) :
  In x (remove_nat t l) <-> In x l /\ x <> t.
Proof.
  unfold remove_nat. rewrite filter_In, negb_true_iff, Nat.eqb_neq. tauto.
Qed.

Lemma remove_nat_NoDup (t : nat) (l : list nat) : NoDup l -> NoDup (remove_nat t l).
Proof. apply NoDup_filter. Qed.

Lemma newest_remembered_less (w : world) (t : nat) (cs : list (nat * cycle)) (n : nat) :
  newest_remembered w ->
  newest_remembered (mkWorld (w_store w) (pollTimeoutId w) (remove_nat t (timers w))
                       (next_timer w) cs n).
Proof.
  intros (Hd & Hb & Hp & Hn). split; [|split; [|split]]; simpl.
  - now apply remove_nat_NoDup.
  - intros x Hx. apply Hb. now apply remove_nat_In in Hx.
  - exact Hp.
  - exact Hn.
Qed.

Lemma clearSubscriptions_newest (w : world) :
  newest_remembered w -> newest_remembered (clearSubscriptions w).
Proof.
  intros H. unfold clearSubscriptions.
  destruct (pollTimeoutId w) as [t|] eqn:E; [|exact H].
  destruct (negb (t =? 0)%nat); [|exact H].
  rewrite <- E. now apply newest_remembered_less.
Qed.

Lemma retrieveAutoCompleteInfo_newest (settingsToRetrieve : value) (w : world) :
  newest_remembered w -> newest_remembered (retrieveAutoCompleteInfo settingsToRetrieve w).
Proof.
  intros H. apply clearSubscriptions_newest in H. exact H.
Qed.

Lemma step_newest (w w' : world) (e : event) :
  newest_remembered w -> step w e = Some w' -> newest_remembered w'.
Proof.
  intros H. destruct e as [s|c f r|c|t polling autocomplete]; simpl.
  - intros [= <-]. now apply retrieveAutoCompleteInfo_newest.
  - destruct (find_cycle c (cycles w)) as [cy|]; [|discriminate].
    destruct (existsb _ _); [|discriminate]. intros [= <-]. exact H.
  - destruct (find_cycle c (cycles w)) as [cy|]; [|discriminate].
    destruct (cyc_unsettled cy); [|discriminate]. intros [= <-].
    destruct H as (Hd & Hb & Hp & Hn). split; [|split; [|split]]; simpl.
    + apply NoDup_app; [assumption|repeat constructor; intros []|].
      intros x Hx [<-|[]]. apply Hb in Hx. lia.
    + intros x Hx. apply in_app_or in Hx as [Hx|[<-|[]]]; [apply Hb in Hx|]; lia.
    + now intros t [= <-].
    + lia.
  - destruct (existsb _ _); [|discriminate]. intros [= <-].
    destruct polling.
    + apply retrieveAutoCompleteInfo_newest. now apply newest_remembered_less.
    + now apply newest_remembered_less.
Qed.

Lemma reachable_newest (w : world) : reachable w -> newest_remembered w.
Proof.
  induction 1 as [|w e w' _ IH E].
  - split; [constructor|split; [intros ? []|split; [discriminate|simpl; lia]]].
  - exact (step_newest w w' e IH E).
Qed.

Lemma clearSubscriptions_keeps (w : world) (t : nat) :
  In t (timers w) -> pollTimeoutId w <> Some t -> In t (timers (clearSubscriptions w)).
Proof.
  intros Hin Hp. unfold clearSubscriptions.
  destruct (pollTimeoutId w) as [t0|]; [|assumption].
  destruct (negb (t0 =? 0)%nat); [|assumption]. simpl.
  apply remove_nat_In. split; [assumption|]. intros ->. now apply Hp.
Qed.

(** X20.  In every state the module can be in, the timers pending have
    distinct ids and the remembered timer is the one set last.  Hence a
    pending timer that is not the one set last is never cleared: whatever
    happens next, it stays pending until it fires. *)
Theorem older_timers_are_never_cleared (w : world) :
  reachable w ->
  newest_remembered w /\
  (forall e w' t,
     step w e = Some w' ->
     In t (timers w) -> S t < next_timer w ->
     (forall polling autocomplete, e <> Fires t polling autocomplete) ->
     In t (timers w')).
Proof.
  intros R. pose proof (reachable_newest w R) as H. split; [exact H|].
  destruct H as (Hd & Hb & Hp & Hn).
  intros e w' t E Hin Hold Hf.
  assert (P : pollTimeoutId w <> Some t) by (intros Q; apply Hp in Q; lia).
  destruct e as [s|c f r|c|t0 polling autocomplete]; simpl in E.
  - injection E as <-. simpl. now apply clearSubscriptions_keeps.
  - destruct (find_cycle c (cycles w)) as [cy|]; [|discriminate].
    destruct (existsb _ _); [|discriminate]. now injection E as <-.
  - destruct (find_cycle c (cycles w)) as [cy|]; [|discriminate].
    destruct (cyc_unsettled cy); [|discriminate]. injection E as <-. simpl.
    apply in_or_app. now left.
  - destruct (existsb _ _); [|discriminate]. injection E as <-.
    assert (N : t <> t0) by (intros ->; now apply (Hf polling autocomplete)).
    destruct polling; simpl.
    + apply clearSubscriptions_keeps; simpl; [|assumption].
      apply remove_nat_In. now split.
    + apply remove_nat_In. now split.
Qed.

Lemma older_timers_are_never_cleared_witness :
  In 1 (timers (retrieveAutoCompleteInfo all_true
                  (mkWorld emptyStore (Some 2) [1; 2] 3 [] 2))).
Proof.
  assert (R : run initial two_calls = Some (mkWorld emptyStore (Some 2) [1; 2] 3 [] 2))
    by (vm_compute; reflexivity).
  refine (proj2 (older_timers_are_never_cleared _
                   (run_reachable two_calls initial _ reach_initial R))
            (Call all_true) _ 1 eq_refl _ _ _).
  - simpl. auto.
  - simpl. lia.
  - discriminate.
Defined.
